(** * Online dictionary learning (decomp.dictionary_learning.solve)

    A shallow embedding of [solve] from [decomp/dictionary_learning.py] and
    the properties of its sufficient-statistics recursion, dictionary
    update, convergence test and loop control.

    Modelling choices.
    - numpy's float64 is idealised as [R]; complex128 as a pair of reals.
      The element kind ([y.dtype.kind]) is a run-time tag, as in numpy.
    - An array is its index function; its shape is carried by the call:
      [y] is [N x C] (the leading sample axes flattened into one), [D] is
      [F x C], [x] is [N x F].  These are the shapes the boundary
      assertions of [solve] establish.
    - An elementwise numpy division whose divisor has a zero component
      stores inf or nan and goes on: the code itself then completes, with
      arrays that hold inf or nan.  The reals have no such values, so the
      model follows a call up to its first division by zero and reports
      the outcome [NonFinite] there.  A statement about [Returns] or
      [Next] is a statement about calls without a division by zero;
      where a property needs that, it is said in the statement.
    - [lasso], [minibatch_index] and the random state are collaborators of
      [solve] and are parameters of the development. *)

From Stdlib Require Import Reals Lra Lia ZArith List String Bool.
Import ListNotations.

Local Open Scope R_scope.

(** ** Element kinds *)

Inductive dtype : Type :=
| float64      (* kind 'f' *)
| complex128.  (* kind 'c' *)

Definition kind_is_c (k : dtype) : bool :=
  match k with complex128 => true | float64 => false end.

Module Cplx.

Definition t : Type := (R * R)%type.

Definition re (z : t) : R := fst z.
Definition im (z : t) : R := snd z.

Definition of_R (r : R) : t := (r, 0).
Definition add (z w : t) : t := (re z + re w, im z + im w).
Definition sub (z w : t) : t := (re z - re w, im z - im w).
Definition mul (z w : t) : t :=
  (re z * re w - im z * im w, re z * im w + im z * re w).
Definition conj (z : t) : t := (re z, - im z).
Definition norm2 (z : t) : R := re z * re z + im z * im z.
Definition div (z w : t) : t :=
  ((re z * re w + im z * im w) / norm2 w,
   (im z * re w - re z * im w) / norm2 w).
Definition abs (z : t) : R := sqrt (norm2 z).

End Cplx.

(** The element type of an array of kind [k], and numpy's arithmetic on it. *)
Definition el (k : dtype) : Type :=
  match k with float64 => R | complex128 => Cplx.t end.

(** Promotion of a Python float (or a float64 element) to kind [k]. *)
Definition of_float {k : dtype} : R -> el k :=
  match k with float64 => fun r => r | complex128 => Cplx.of_R end.

Definition eadd {k : dtype} : el k -> el k -> el k :=
  match k with float64 => Rplus | complex128 => Cplx.add end.
Definition esub {k : dtype} : el k -> el k -> el k :=
  match k with float64 => Rminus | complex128 => Cplx.sub end.
Definition emul {k : dtype} : el k -> el k -> el k :=
  match k with float64 => Rmult | complex128 => Cplx.mul end.
Definition ediv {k : dtype} : el k -> el k -> el k :=
  match k with float64 => Rdiv | complex128 => Cplx.div end.
(** [xp.conj] *)
Definition econj {k : dtype} : el k -> el k :=
  match k with float64 => fun r => r | complex128 => Cplx.conj end.
(** [xp.real] *)
Definition ereal {k : dtype} : el k -> R :=
  match k with float64 => fun r => r | complex128 => Cplx.re end.
Definition eimag {k : dtype} : el k -> R :=
  match k with float64 => fun _ => 0 | complex128 => Cplx.im end.
(** [xp.abs]: absolute value, magnitude for complex elements. *)
Definition eabs {k : dtype} : el k -> R :=
  match k with float64 => Rabs | complex128 => Cplx.abs end.

Definition ezero {k : dtype} : el k := of_float 0.

(** Whether an element is a zero divisor of [ediv]. *)
Definition is_zero {k : dtype} : el k -> bool :=
  match k with
  | float64 => fun r => if Req_dec_T r 0 then true else false
  | complex128 => fun z =>
      andb (if Req_dec_T (Cplx.re z) 0 then true else false)
           (if Req_dec_T (Cplx.im z) 0 then true else false)
  end.

(** ** Arrays as index functions *)

Definition vec (k : dtype) : Type := nat -> el k.
Definition mat (k : dtype) : Type := nat -> nat -> el k.
Definition fvec : Type := nat -> R.
Definition fmat : Type := nat -> nat -> R.

(** Sum of [f 0 .. f (n-1)], in index order: numpy's reductions. *)
Fixpoint esum {k : dtype} (n : nat) (f : nat -> el k) : el k :=
  match n with
  | O => ezero
  | S n' => eadd (esum n' f) (f n')
  end.

Fixpoint rsum (n : nat) (f : nat -> R) : R :=
  match n with
  | O => 0
  | S n' => rsum n' f + f n'
  end.

(** [xp.zeros] *)
Definition zeros {k : dtype} : mat k := fun _ _ => ezero.

(** [a.T] followed, for complex data, by [xp.conj] (lines 106-108). *)
Definition transpose {k : dtype} (a : mat k) : mat k := fun i j => a j i.
Definition conj_if_c {k : dtype} (a : mat k) : mat k :=
  if kind_is_c k then (fun i j => econj (a i j)) else a.

(** [xp.dot(a, b)] with inner dimension [q]. *)
Definition dot {k : dtype} (q : nat) (a b : mat k) : mat k :=
  fun i j => esum q (fun n => emul (a i n) (b n j)).

(** ** Fancy indexing on the sample axis *)

(** [a[indexes]]: a copy of the selected rows, in the order drawn. *)
Definition getitem {V : Type} (a : nat -> V) (indexes : list nat) : nat -> V :=
  fun i => a (nth i indexes O).

(** [a[indexes] = v]: row [p] of [v] is stored at row [indexes[p]], for
    [p] increasing, so the last store wins where an index is repeated. *)
Fixpoint setitem_from {V : Type} (p : nat) (indexes : list nat)
         (v a : nat -> V) : nat -> V :=
  match indexes with
  | [] => a
  | i :: rest =>
      setitem_from (S p) rest v (fun r => if Nat.eqb r i then v p else a r)
  end.

Definition setitem {V : Type} (a : nat -> V) (indexes : list nat)
           (v : nat -> V) : nat -> V :=
  setitem_from O indexes v a.

(** An index outside the sample axis raises [IndexError]. *)
Definition in_bounds (n : nat) (indexes : list nat) : bool :=
  forallb (fun i => Nat.ltb i n) indexes.

(** ** [xp.max] *)

Definition flatten (F C : nat) (a : fmat) : list R :=
  flat_map (fun f => map (a f) (seq 0 C)) (seq 0 F).

(** [xp.max] of a zero-size array raises [ValueError]. *)
Definition amax (l : list R) : option R :=
  match l with
  | [] => None
  | h :: t => Some (fold_left Rmax t h)
  end.

(** [range(lo, hi)] *)
Definition range (lo hi : Z) : list Z :=
  map (fun i => (lo + Z.of_nat i)%Z) (seq 0 (Z.to_nat (hi - lo))).

(** ** The call, its collaborators and its outcomes *)

Definition _JITTER : R := 1e-10.

Inductive exn : Type :=
| NotImplementedError
| IndexError
| ValueError
| UnboundLocalError.

(** Where in the body of the [try] a [KeyboardInterrupt] arrives:
    before line 103 has stored the codes, or right after it. *)
Inductive interrupt_point : Type :=
| BeforeStore
| AfterStore.

(** The arguments of [solve]. *)
Record call (k : dtype) : Type := Call {
  y : mat k;
  N : nat;                      (* y.shape = (N, C) *)
  D : mat k;
  F : nat;                      (* D.shape = (F, C) *)
  C : nat;
  alpha : R;
  x : option (mat k);
  tol : R;
  minibatch : Z;
  maxiter : Z;
  lasso_method : string;
  lasso_iter : Z;
  mask : option fmat;
  random_seed : option Z
}.

Arguments Call {k}.
Arguments y {k}.
Arguments N {k}.
Arguments D {k}.
Arguments F {k}.
Arguments C {k}.
Arguments alpha {k}.
Arguments x {k}.
Arguments tol {k}.
Arguments minibatch {k}.
Arguments maxiter {k}.
Arguments lasso_method {k}.
Arguments lasso_iter {k}.
Arguments mask {k}.
Arguments random_seed {k}.

(** What [solve] calls but does not define: the random state, the
    minibatch sampler of [utils.data], the solvers of [lasso], and the
    moment at which the user interrupts.  A solver receives the shape
    [(m, F, C)] of its arguments first, then the arguments in the order of
    the source: [y_minibatch], [D], [alpha], [x0], [tol], [maxiter]
    (and the mask), and returns its iteration count and codes of shape
    [m x F].  A solver is a function: it does not write into the arrays
    it is given. *)
Record collaborators (k : dtype) : Type := Collaborators {
  RandomState : Type;
  new_RandomState : option Z -> RandomState;
  minibatch_index : nat * nat -> Z -> RandomState -> list nat * RandomState;
  solve_ista :
    nat * nat * nat -> mat k -> mat k -> R -> mat k -> R -> Z -> Z * mat k;
  solve_ista_mask :
    nat * nat * nat -> mat k -> mat k -> R -> mat k -> R -> Z -> fmat ->
    Z * mat k;
  solve_fista :
    nat * nat * nat -> mat k -> mat k -> R -> mat k -> R -> Z ->
    option fmat -> Z * mat k;
  interrupt : Z -> option interrupt_point
}.

Arguments RandomState {k}.
Arguments new_RandomState {k}.
Arguments minibatch_index {k}.
Arguments solve_ista {k}.
Arguments solve_ista_mask {k}.
Arguments solve_fista {k}.
Arguments interrupt {k}.

(** The local variables of [solve] that live across iterations. *)
Record state (k : dtype) (RS : Type) : Type := State {
  st_D : mat k;
  st_x : mat k;
  st_A : mat k;
  st_B : mat k;
  st_E : option fvec;           (* bound only when a mask is given *)
  st_rng : RS
}.

Arguments State {k RS}.
Arguments st_D {k RS}.
Arguments st_x {k RS}.
Arguments st_A {k RS}.
Arguments st_B {k RS}.
Arguments st_E {k RS}.
Arguments st_rng {k RS}.

(** How a call ends, as far as the model follows it.  [NonFinite]: the
    call has met a division by zero.  The code has no exit there: it goes
    on with inf or nan and completes, by a return or an exception, with
    arrays that the model does not describe. *)
Inductive result (k : dtype) : Type :=
| Returns (it : Z) (D x : mat k)
| Raises (e : exn)
| NonFinite.

Arguments Returns {k}.
Arguments Raises {k}.
Arguments NonFinite {k}.

(** How one pass through the loop body ends. *)
Inductive step (k : dtype) (RS : Type) : Type :=
| Next (s : state k RS)
| Done (r : result k).

Arguments Next {k RS}.
Arguments Done {k RS}.

(** ** The body of [solve] *)

Section Solve.

Context {k : dtype}.
Variable env : collaborators k.
Variable c : call k.

Let RS : Type := RandomState env.

(** Lines 78-101: the sparse-code step.  The value is what the variable
    [x_minibatch] holds afterwards.  Both [fista] branches bind the
    solver's codes to another name, [x_minibatc], so [x_minibatch] keeps
    the warm start. *)
Definition lasso_step (m : nat) (y_minibatch x_minibatch : mat k)
           (indexes : list nat) (D : mat k) : exn + mat k :=
  let shape := (m, F c, C c) in
  match mask c with
  | None =>
      if String.eqb (lasso_method c) "ista" then
        let '(it2, x_minibatch) :=
          solve_ista env shape y_minibatch D (alpha c) x_minibatch (tol c)
                     (lasso_iter c) in
        inr x_minibatch
      else if String.eqb (lasso_method c) "fista" then
        let '(it2, x_minibatc) :=
          solve_fista env shape y_minibatch D (alpha c) x_minibatch (tol c)
                      (lasso_iter c) None in
        inr x_minibatch
      else inl NotImplementedError
  | Some mask =>
      let mask_minibatch := getitem mask indexes in
      if String.eqb (lasso_method c) "ista" then
        let '(it2, x_minibatch) :=
          solve_ista_mask env shape y_minibatch D (alpha c) x_minibatch
                          (tol c) (lasso_iter c) mask_minibatch in
        inr x_minibatch
      else if String.eqb (lasso_method c) "fista" then
        let '(it2, x_minibatc) :=
          solve_fista env shape y_minibatch D (alpha c) x_minibatch (tol c)
                      (lasso_iter c) (Some mask_minibatch) in
        inr x_minibatch
      else inl NotImplementedError
  end.

(** Lines 106-108: [xT]. *)
Definition xT_of (x_minibatch : mat k) : mat k :=
  conj_if_c (transpose x_minibatch).

(** Lines 110-111: the recursion of [A], for a minibatch of [m] rows. *)
Definition update_A (it : Z) (m : nat) (A x_minibatch : mat k) : mat k :=
  let xT := xT_of x_minibatch in
  let it_inv := 1 / IZR it in
  fun f g =>
    eadd (emul (of_float (1 - it_inv)) (A f g))
         (emul (of_float it_inv) (dot m xT x_minibatch f g)).

(** Line 113: the recursion of [B] without a mask. *)
Definition update_B (it : Z) (m : nat) (B x_minibatch y_minibatch : mat k)
  : mat k :=
  let xT := xT_of x_minibatch in
  let it_inv := 1 / IZR it in
  fun f ch =>
    eadd (emul (of_float (1 - it_inv)) (B f ch))
         (emul (of_float it_inv) (dot m xT y_minibatch f ch)).

(** Line 115: [xp.sum(mask_minibatch, axis=0)]. *)
Definition mask_sum_of (m : nat) (mask_minibatch : fmat) : fvec :=
  fun ch => rsum m (fun n => mask_minibatch n ch).

(** Line 116. *)
Definition update_E (E mask_sum : fvec) : fvec :=
  fun ch => E ch + mask_sum ch.

(** [1.0 / E] meets a zero component. *)
Definition zero_exposure (E : fvec) : bool :=
  existsb (fun ch => if Req_dec_T (E ch) 0 then true else false)
          (seq 0 (C c)).

(** Lines 117-118, given the [E] of line 116. *)
Definition update_B_mask (m : nat) (E mask_sum : fvec)
           (B x_minibatch y_minibatch : mat k) (mask_minibatch : fmat)
  : mat k :=
  let xT := xT_of x_minibatch in
  let ym : mat k :=
    fun n ch => emul (y_minibatch n ch) (of_float (mask_minibatch n ch)) in
  fun f ch =>
    eadd (B f ch)
         (emul (of_float (1 / E ch))
               (esub (dot m xT ym f ch)
                     (emul (of_float (mask_sum ch)) (B f ch)))).

(** Lines 120-121. *)
Definition Adiag_of (A : mat k) : vec k := fun f => A f f.

Definition U_of (A B D : mat k) : mat k :=
  let Adiag := Adiag_of A in
  fun f ch =>
    eadd (ediv (esub (B f ch) (dot (F c) A D f ch))
               (eadd (Adiag f) (of_float _JITTER)))
         (D f ch).

(** [Adiag + _JITTER] has a zero component that divides something. *)
Definition zero_normalizer (A : mat k) : bool :=
  andb (negb (Nat.eqb (C c) 0))
       (existsb (fun f => is_zero (eadd (Adiag_of A f) (of_float _JITTER)))
                (seq 0 (F c))).

(** Lines 122-125: one summand of [Unorm], by element kind. *)
Definition norm_term : el k -> R :=
  match k with
  | complex128 => fun u => Cplx.re (Cplx.mul (Cplx.conj u) u)
  | float64 => fun u => u * u
  end.

Definition Unorm_of (U : mat k) : fvec :=
  fun f => rsum (C c) (fun ch => norm_term (U f ch)).

(** Line 127. *)
Definition D_new_of (U : mat k) : mat k :=
  let Unorm := Unorm_of U in
  fun f ch => ediv (U f ch) (of_float (Rmax (Unorm f) 1)).

(** Line 128: [xp.max(xp.abs(D - D_new))]. *)
Definition max_change (D D_new : mat k) : option R :=
  amax (flatten (F c) (C c) (fun f ch => eabs (esub (D f ch) (D_new f ch)))).

(** Lines 112-118: the statistics [B] and [E] after the minibatch. *)
Definition update_BE (it : Z) (m : nat) (indexes : list nat)
           (B : mat k) (E : option fvec) (x_minibatch y_minibatch : mat k)
  : result k + (mat k * option fvec) :=
  match mask c with
  | None => inr (update_B it m B x_minibatch y_minibatch, E)
  | Some mask =>
      let mask_minibatch := getitem mask indexes in
      let mask_sum := mask_sum_of m mask_minibatch in
      match E with
      | None => inl (Raises UnboundLocalError)
      | Some E =>
          let E := update_E E mask_sum in
          if zero_exposure E then inl NonFinite
          else inr (update_B_mask m E mask_sum B x_minibatch y_minibatch
                                  mask_minibatch, Some E)
      end
  end.

(** Lines 73-127: the body of the [try] up to the candidate dictionary.
    [Next] carries the values [D_new], [x], [A], [B], [E] and the random
    state that the loop goes on with if the convergence test fails. *)
Definition propose (it : Z) (s : state k RS) : step k RS :=
  match interrupt env it with
  | Some BeforeStore => Done (Returns it (st_D s) (st_x s))
  | after =>
      let '(indexes, rng) :=
        minibatch_index env (N c, C c) (minibatch c) (st_rng s) in
      if negb (in_bounds (N c) indexes) then Done (Raises IndexError) else
      let m := List.length indexes in
      let x_minibatch := getitem (st_x s) indexes in
      let y_minibatch := getitem (y c) indexes in
      match lasso_step m y_minibatch x_minibatch indexes (st_D s) with
      | inl e => Done (Raises e)
      | inr x_minibatch =>
          let x := setitem (st_x s) indexes x_minibatch in
          match after with
          | Some _ => Done (Returns it (st_D s) x)
          | None =>
              let A := update_A it m (st_A s) x_minibatch in
              match update_BE it m indexes (st_B s) (st_E s)
                              x_minibatch y_minibatch with
              | inl r => Done r
              | inr (B, E) =>
                  if zero_normalizer A then Done NonFinite else
                  let U := U_of A B (st_D s) in
                  let D_new := D_new_of U in
                  Next (State D_new x A B E rng)
              end
          end
      end
  end.

(** Lines 72-133: one pass through the body of the loop. *)
Definition iteration (it : Z) (s : state k RS) : step k RS :=
  match propose it s with
  | Done r => Done r
  | Next s' =>
      let D_new := st_D s' in
      match max_change (st_D s) D_new with
      | None => Done (Raises ValueError)
      | Some change =>
          if Rlt_dec change (tol c)
          then Done (Returns it (st_D s) (st_x s'))
          else Next s'
      end
  end.

(** The [for] loop over the given iteration numbers. *)
Fixpoint run (its : list Z) (s : state k RS) : step k RS :=
  match its with
  | [] => Next s
  | it :: rest =>
      match iteration it s with
      | Next s' => run rest s'
      | Done r => Done r
      end
  end.

(** Lines 56-69: the state on entry to the loop.  The checks of lines
    54 and 60-64 ([get_array_module], [assertion]) establish the kinds
    and shapes that the call record fixes by its types. *)
Definition init : state k RS :=
  State (D c)
        (match x c with Some x => x | None => zeros end)
        zeros
        zeros
        (match mask c with Some _ => Some (fun _ => 0) | None => None end)
        (new_RandomState env (random_seed c)).

Definition solve : result k :=
  match run (range 1 (maxiter c)) init with
  | Next s => Returns (maxiter c) (st_D s) (st_x s)
  | Done r => r
  end.

(** The sample indices drawn in state [s]. *)
Definition indexes_of (s : state k RS) : list nat :=
  fst (minibatch_index env (N c, C c) (minibatch c) (st_rng s)).

(** The recursion of [A] alone, run from iteration [it] over a sequence of
    code minibatches, each given with its number of rows. *)
Fixpoint fold_A (it : Z) (batches : list (nat * mat k)) (A : mat k) : mat k :=
  match batches with
  | [] => A
  | (m, x_minibatch) :: rest =>
      fold_A (it + 1) rest (update_A it m A x_minibatch)
  end.

(** The codes that the sparse-code step leaves in [x_minibatch] in state
    [s], with the number of rows of the minibatch. *)
Definition codes_of (s : state k RS) : option (nat * mat k) :=
  let indexes := indexes_of s in
  let m := List.length indexes in
  match lasso_step m (getitem (y c) indexes) (getitem (st_x s) indexes)
                   indexes (st_D s) with
  | inr x_minibatch => Some (m, x_minibatch)
  | inl _ => None
  end.

(** The code minibatches of the iterations of a run, in order. *)
Fixpoint codes_trace (its : list Z) (s : state k RS) : list (nat * mat k) :=
  match its with
  | [] => []
  | it :: rest =>
      match iteration it s, codes_of s with
      | Next s', Some b => b :: codes_trace rest s'
      | _, _ => []
      end
  end.

End Solve.

(** The invariant of the dictionary variable of [solve] for the call [c]:
    it holds the caller's dictionary or a dictionary inside the unit ball. *)
Definition ball_or_initial {k : dtype} (c : call k) (D' : mat k) : Prop :=
  D' = D c \/ forall f, Unorm_of c D' f <= 1.

(** A matrix that equals its conjugate transpose. *)
Definition hermitian {k : dtype} (A : mat k) : Prop :=
  forall f g, A f g = econj (A g f).

(** ** The running average that the recursion of [A] is meant to compute *)

(** [Xb^H . Xb] for a minibatch of [m] rows. *)
Definition gram {k : dtype} (m : nat) (x_minibatch : mat k) : mat k :=
  fun f g => esum m (fun n => emul (econj (x_minibatch n f)) (x_minibatch n g)).

Fixpoint sum_of_grams {k : dtype} (batches : list (nat * mat k)) : mat k :=
  match batches with
  | [] => zeros
  | (m, x_minibatch) :: rest =>
      fun f g => eadd (gram m x_minibatch f g) (sum_of_grams rest f g)
  end.

Definition average_of_grams {k : dtype} (batches : list (nat * mat k))
  : mat k :=
  fun f g =>
    emul (of_float (1 / INR (List.length batches))) (sum_of_grams batches f g).

(** ** A small concrete run: one channel, one atom, two samples *)

Definition ones : mat float64 := fun _ _ => 1.

(** The sampler always draws sample 0, every solver answers with codes
    that are all 1, and nobody interrupts. *)
Definition env_ones : collaborators float64 :=
  Collaborators float64 unit
    (fun _ => tt)
    (fun _ _ rng => ([O], rng))
    (fun _ _ _ _ _ _ _ => (1%Z, ones))
    (fun _ _ _ _ _ _ _ _ => (1%Z, ones))
    (fun _ _ _ _ _ _ _ _ => (1%Z, ones))
    (fun _ => None).

(** [solve(y, D, 1.0, tol=tol, maxiter=maxiter, lasso_method=method,
    mask=mask)] with [y = [[1.], [1.]]] and [D = [[d]]]. *)
Definition call_ones (method : string) (tol : R) (maxiter : Z)
           (mask : option fmat) (d : R) : call float64 :=
  Call ones 2 (fun _ _ => d) 1 1 1 None tol 1 maxiter method 10 mask None.

(** The calls of the small run that the examples below evaluate. *)
Definition call_ista : call float64 := call_ones "ista" 0 2 None 0.
Definition call_fista : call float64 := call_ones "fista" 0 2 None 0.
Definition call_tol2 : call float64 := call_ones "ista" 2 5 None 0.
Definition call_maxiter1 : call float64 := call_ones "ista" 0 1 None 2.

(** A mask that hides every entry, and one that observes every entry. *)
Definition mask_hidden : fmat := fun _ _ => 0.
Definition mask_observed : fmat := fun _ _ => 1.
Definition call_hidden : call float64 :=
  call_ones "ista" 0 2 (Some mask_hidden) 0.
Definition call_observed : call float64 :=
  call_ones "ista" 0 2 (Some mask_observed) 0.

(** A one-atom matrix whose entries are 2. *)
Definition twos : mat float64 := fun _ _ => 2.

(** ** The cross products that the recursion of [B] accumulates *)

Section CrossProducts.

Context {k : dtype}.
Variable env : collaborators k.
Variable c : call k.

(** [Xb^H . Yb] for the minibatch of state [s], or [Xb^H . (Yb * Mb)]
    under a mask; [Xb] is what the sparse-code step leaves in
    [x_minibatch]. *)
Definition cross_of (s : state k (RandomState env)) : mat k :=
  let indexes := indexes_of env c s in
  let m := List.length indexes in
  let y_minibatch := getitem (y c) indexes in
  match lasso_step env c m y_minibatch (getitem (st_x s) indexes) indexes
                   (st_D s) with
  | inl _ => zeros
  | inr x_minibatch =>
      match mask c with
      | None =>
          fun f ch =>
            esum m (fun n => emul (econj (x_minibatch n f))
                                  (y_minibatch n ch))
      | Some mask =>
          fun f ch =>
            esum m (fun n =>
                      emul (econj (x_minibatch n f))
                           (emul (y_minibatch n ch)
                                 (of_float (getitem mask indexes n ch))))
      end
  end.

(** The sum of these cross products over the iterations of a run. *)
Fixpoint cross_sum (its : list Z) (s : state k (RandomState env)) : mat k :=
  match its with
  | [] => zeros
  | it :: rest =>
      match iteration env c it s with
      | Next s' => fun f ch => eadd (cross_of s f ch) (cross_sum rest s' f ch)
      | Done _ => zeros
      end
  end.

End CrossProducts.

(** ** The exposure that line 117 divides by *)

Section Exposure.

Context {k : dtype}.
Variable env : collaborators k.
Variable c : call k.

(** The [E] of line 116 for the minibatch of state [s], when a mask is
    given. *)
Definition exposure_after (s : state k (RandomState env)) : option fvec :=
  match mask c, st_E s with
  | Some mask, Some E =>
      let indexes := indexes_of env c s in
      Some (update_E E (mask_sum_of (List.length indexes)
                                    (getitem mask indexes)))
  | _, _ => None
  end.

(** No channel has a zero exposure when the iteration entered in state
    [s] divides by it.  Without a mask nothing is divided by. *)
Definition exposed (s : state k (RandomState env)) : Prop :=
  match exposure_after s with
  | Some E => forall ch, (ch < C c)%nat -> E ch <> 0
  | None => True
  end.

(** The same for every iteration of a run. *)
Fixpoint always_exposed (its : list Z) (s : state k (RandomState env))
  : Prop :=
  match its with
  | [] => True
  | it :: rest =>
      exposed s
      /\ match iteration env c it s with
         | Next s' => always_exposed rest s'
         | Done _ => True
         end
  end.

End Exposure.

(** ** More small runs *)

(** The small run with a user who interrupts the first iteration before
    the codes are stored. *)
Definition env_interrupted : collaborators float64 :=
  Collaborators float64 unit
    (fun _ => tt)
    (fun _ _ rng => ([O], rng))
    (fun _ _ _ _ _ _ _ => (1%Z, ones))
    (fun _ _ _ _ _ _ _ _ => (1%Z, ones))
    (fun _ _ _ _ _ _ _ _ => (1%Z, ones))
    (fun it => if Z.eqb it 1 then Some BeforeStore else None).

(** The small run with solvers that answer with codes that are all 0. *)
Definition env_zeros : collaborators float64 :=
  Collaborators float64 unit
    (fun _ => tt)
    (fun _ _ rng => ([O], rng))
    (fun _ _ _ _ _ _ _ => (1%Z, zeros))
    (fun _ _ _ _ _ _ _ _ => (1%Z, zeros))
    (fun _ _ _ _ _ _ _ _ => (1%Z, zeros))
    (fun _ => None).

(** Calls on the dictionary [[0.5]], with tolerance 1 and tolerance 0. *)
Definition call_half : call float64 := call_ones "ista" 1 5 None (1 / 2).
Definition call_half_tol0 : call float64 :=
  call_ones "ista" 0 2 None (1 / 2).

(** The small run with a sampler that depends on its state: the state
    counts the draws, and the [n]-th draw is sample [n]. *)
Definition env_counter : collaborators float64 :=
  Collaborators float64 nat
    (fun _ => O)
    (fun _ _ n => ([n], S n))
    (fun _ _ _ _ _ _ _ => (1%Z, ones))
    (fun _ _ _ _ _ _ _ _ => (1%Z, ones))
    (fun _ _ _ _ _ _ _ _ => (1%Z, ones))
    (fun _ => None).

(** A call that names a solver [lasso] does not have. *)
Definition call_unknown : call float64 := call_ones "omp" 0 2 None 0.

(** A call on a dictionary without atoms. *)
Definition call_no_atoms : call float64 :=
  Call ones 2 zeros 0 1 1 None 0 1 2 "ista" 10 None None.

(** ** [utils.cp_compat] *)

Module CpCompat.

(** The module an array belongs to. *)
Inductive xp_module : Type :=
| numpy
| cupy.

(** An argument of [get_array_module]: [None], or an array of a module. *)
Definition arg : Type := option xp_module.

Inductive outcome : Type :=
| Module_ (xp : xp_module)
| TypeError
| IndexError.

Definition xp_eqb (a b : xp_module) : bool :=
  match a, b with
  | numpy, numpy | cupy, cupy => true
  | _, _ => false
  end.

(** [cupy.get_array_module(x)] for one argument: [cupy] for a cupy array,
    [numpy] for anything else, [None] included. *)
Definition cupy_get_array_module (x : arg) : xp_module :=
  match x with
  | Some cupy => cupy
  | _ => numpy
  end.

(** Lines 8-14: [get_array_module] when [cupy] can be imported. *)
Definition get_array_module (arrays : list arg) : outcome :=
  match arrays with
  | [] => IndexError
  | a0 :: _ =>
      let xp := cupy_get_array_module a0 in
      if existsb (fun x =>
                    match x with
                    | None => false
                    | Some _ => negb (xp_eqb (cupy_get_array_module x) xp)
                    end) arrays
      then TypeError
      else Module_ xp
  end.

(** Lines 20-21: [get_array_module] when [cupy] cannot be imported. *)
Definition get_array_module_fallback (arrays : list arg) : outcome :=
  Module_ numpy.

End CpCompat.

(** ** Arithmetic of the element kinds *)

Lemma el_ext (k : dtype) (a b : el k) :
  ereal a = ereal b -> eimag a = eimag b -> a = b.
Proof.
  destruct k; simpl; intros Hr Hi.
  - exact Hr.
  - destruct a, b; simpl in *; unfold Cplx.re, Cplx.im in *; simpl in *.
    congruence.
Qed.

Lemma jitter_pos : 0 < _JITTER.
Proof. unfold _JITTER. lra. Qed.

Section ElementParts.

Context {k : dtype}.
Implicit Types a b : el k.

Lemma ereal_of_float (r : R) : ereal (@of_float k r) = r.
Proof. destruct k; reflexivity. Qed.

Lemma eimag_of_float (r : R) : eimag (@of_float k r) = 0.
Proof. destruct k; reflexivity. Qed.

Lemma ereal_eadd a b : ereal (eadd a b) = ereal a + ereal b.
Proof. destruct k; reflexivity. Qed.

Lemma eimag_eadd a b : eimag (eadd a b) = eimag a + eimag b.
Proof. destruct k; simpl; [lra | reflexivity]. Qed.

Lemma ereal_esub a b : ereal (esub a b) = ereal a - ereal b.
Proof. destruct k; reflexivity. Qed.

Lemma eimag_esub a b : eimag (esub a b) = eimag a - eimag b.
Proof. destruct k; simpl; [lra | reflexivity]. Qed.

Lemma ereal_emul a b :
  ereal (emul a b) = ereal a * ereal b - eimag a * eimag b.
Proof. destruct k; simpl; [lra | reflexivity]. Qed.

Lemma eimag_emul a b :
  eimag (emul a b) = ereal a * eimag b + eimag a * ereal b.
Proof. destruct k; simpl; [lra | reflexivity]. Qed.

Lemma ereal_econj a : ereal (econj a) = ereal a.
Proof. destruct k; reflexivity. Qed.

Lemma eimag_econj a : eimag (econj a) = - eimag a.
Proof. destruct k; simpl; [lra | reflexivity]. Qed.

Lemma ereal_ezero : ereal (@ezero k) = 0.
Proof. apply ereal_of_float. Qed.

Lemma eimag_ezero : eimag (@ezero k) = 0.
Proof. apply eimag_of_float. Qed.

Lemma ereal_esum (n : nat) (f : nat -> el k) :
  ereal (esum n f) = rsum n (fun i => ereal (f i)).
Proof.
  induction n as [|n IH]; simpl.
  - apply ereal_ezero.
  - rewrite ereal_eadd, IH. reflexivity.
Qed.

Lemma eimag_esum (n : nat) (f : nat -> el k) :
  eimag (esum n f) = rsum n (fun i => eimag (f i)).
Proof.
  induction n as [|n IH]; simpl.
  - apply eimag_ezero.
  - rewrite eimag_eadd, IH. reflexivity.
Qed.

(** Division by a promoted nonzero float divides both parts. *)
Lemma ereal_ediv_float a (r : R) :
  r <> 0 -> ereal (ediv a (of_float r)) = ereal a / r.
Proof.
  intros Hr. destruct k; simpl; [reflexivity|].
  unfold Cplx.norm2, Cplx.re, Cplx.im; simpl. field. lra.
Qed.

Lemma eimag_ediv_float a (r : R) :
  r <> 0 -> eimag (ediv a (of_float r)) = eimag a / r.
Proof.
  intros Hr. destruct k; simpl; [lra|].
  unfold Cplx.norm2, Cplx.re, Cplx.im; simpl. field. lra.
Qed.

(** One summand of [Unorm] is the squared magnitude, for both kinds. *)
Lemma norm_term_parts a :
  norm_term a = ereal a * ereal a + eimag a * eimag a.
Proof.
  destruct k; simpl; [lra|].
  unfold Cplx.re, Cplx.im; simpl. lra.
Qed.

Lemma conj_if_c_entry (m : mat k) (i j : nat) :
  conj_if_c m i j = econj (m i j).
Proof. unfold conj_if_c. destruct k; reflexivity. Qed.

End ElementParts.

Create Rewrite HintDb el_parts.

#[local] Hint Rewrite @ereal_of_float @eimag_of_float @ereal_eadd @eimag_eadd
  @ereal_esub @eimag_esub @ereal_emul @eimag_emul @ereal_econj @eimag_econj
  @ereal_ezero @eimag_ezero @ereal_esum @eimag_esum : el_parts.

(** ** Real sums *)

Lemma rsum_ext (n : nat) (f g : nat -> R) :
  (forall i, (i < n)%nat -> f i = g i) -> rsum n f = rsum n g.
Proof.
  induction n as [|n IH]; intros H; simpl; [reflexivity|].
  rewrite IH by (intros; apply H; lia). rewrite H by lia. reflexivity.
Qed.

Lemma rsum_plus (n : nat) (f g : nat -> R) :
  rsum n (fun i => f i + g i) = rsum n f + rsum n g.
Proof. induction n as [|n IH]; simpl; [lra | rewrite IH; lra]. Qed.

Lemma rsum_minus (n : nat) (f g : nat -> R) :
  rsum n (fun i => f i - g i) = rsum n f - rsum n g.
Proof. induction n as [|n IH]; simpl; [lra | rewrite IH; lra]. Qed.

Lemma rsum_scale (n : nat) (a : R) (f : nat -> R) :
  rsum n (fun i => a * f i) = a * rsum n f.
Proof. induction n as [|n IH]; simpl; [lra | rewrite IH; lra]. Qed.

Lemma rsum_opp (n : nat) (f : nat -> R) :
  rsum n (fun i => - f i) = - rsum n f.
Proof. induction n as [|n IH]; simpl; [lra | rewrite IH; lra]. Qed.

Lemma rsum_nonneg (n : nat) (f : nat -> R) :
  (forall i, 0 <= f i) -> 0 <= rsum n f.
Proof.
  intros H. induction n as [|n IH]; simpl; [lra | specialize (H n); lra].
Qed.

(** ** The dictionary update *)

Section Projection.

Context {k : dtype}.
Variable c : call k.

Lemma Rmax_1_pos (u : R) : Rmax u 1 <> 0.
Proof. pose proof (Rmax_r u 1). lra. Qed.

Lemma norm_term_nonneg (a : el k) : 0 <= norm_term a.
Proof. rewrite norm_term_parts. nra. Qed.

Lemma Unorm_nonneg (U : mat k) (f : nat) : 0 <= Unorm_of c U f.
Proof. apply rsum_nonneg. intros. apply norm_term_nonneg. Qed.

(** The squared norm of a projected atom. *)
Lemma Unorm_D_new (U : mat k) (f : nat) :
  Unorm_of c (D_new_of c U) f
  = Unorm_of c U f / (Rmax (Unorm_of c U f) 1 * Rmax (Unorm_of c U f) 1).
Proof.
  unfold D_new_of. set (u := Unorm_of c U f).
  pose proof (Rmax_1_pos u) as Hm.
  unfold Unorm_of at 1. fold u.
  rewrite (rsum_ext _ _
    (fun ch => / (Rmax u 1 * Rmax u 1) * norm_term (U f ch))).
  - rewrite rsum_scale. fold (Unorm_of c U f). fold u. field. exact Hm.
  - intros ch _. rewrite !norm_term_parts.
    rewrite ereal_ediv_float, eimag_ediv_float by exact Hm.
    field. exact Hm.
Qed.

Lemma D_new_in_ball (U : mat k) (f : nat) : Unorm_of c (D_new_of c U) f <= 1.
Proof.
  rewrite Unorm_D_new. set (u := Unorm_of c U f).
  pose proof (Unorm_nonneg U f) as Hu. fold u in Hu.
  pose proof (Rmax_l u 1) as Hl. pose proof (Rmax_r u 1) as Hr.
  apply Rmult_le_reg_r with (r := Rmax u 1 * Rmax u 1); [nra|].
  unfold Rdiv. rewrite Rmult_assoc, Rinv_l by nra. nra.
Qed.

Lemma ediv_by_one (a : el k) : ediv a (of_float 1) = a.
Proof.
  apply el_ext.
  - rewrite ereal_ediv_float by lra. lra.
  - rewrite eimag_ediv_float by lra. lra.
Qed.

End Projection.

(** C3 (as amended).  An atom of [U] whose squared norm exceeds 1 is
    divided by its squared norm, not by its norm: the atom of [D_new] has
    squared norm [1 / Unorm], strictly below 1.  An atom of [U] inside the
    unit ball is left unscaled. *)
Theorem projection_divides_by_squared_norm
        (k : dtype) (c : call k) (U : mat k) (f : nat) :
  (1 < Unorm_of c U f ->
   (forall ch, D_new_of c U f ch = ediv (U f ch) (of_float (Unorm_of c U f)))
   /\ Unorm_of c (D_new_of c U) f = 1 / Unorm_of c U f
   /\ Unorm_of c (D_new_of c U) f < 1)
  /\ (Unorm_of c U f <= 1 -> forall ch, D_new_of c U f ch = U f ch).
Proof.
  split.
  - intros Hu.
    assert (Hmax : Rmax (Unorm_of c U f) 1 = Unorm_of c U f)
      by (apply Rmax_left; lra).
    split; [|split].
    + intros ch. unfold D_new_of. rewrite Hmax. reflexivity.
    + rewrite Unorm_D_new, Hmax. field. lra.
    + rewrite Unorm_D_new, Hmax.
      replace (Unorm_of c U f / (Unorm_of c U f * Unorm_of c U f))
        with (/ Unorm_of c U f) by (field; lra).
      rewrite <- Rinv_1. apply Rinv_lt_contravar; lra.
  - intros Hu ch. unfold D_new_of.
    rewrite Rmax_right by exact Hu. apply ediv_by_one.
Qed.

(** The atom [2] in one channel is outside the ball, the zero atom is
    inside. *)
Lemma projection_divides_by_squared_norm_witness :
  1 < Unorm_of call_maxiter1 twos O
  /\ Unorm_of call_maxiter1 (D_new_of call_maxiter1 twos) O
     = 1 / Unorm_of call_maxiter1 twos O
  /\ (Unorm_of call_maxiter1 zeros O <= 1
      /\ D_new_of call_maxiter1 zeros O O = 0).
Proof.
  unfold call_maxiter1, twos.
  set (c := call_ones "ista" 0 1 None 2).
  set (U := (fun _ _ => 2) : mat float64).
  assert (H1 : 1 < Unorm_of c U O) by (unfold Unorm_of, U; simpl; lra).
  assert (H0 : Unorm_of c zeros O <= 1) by (unfold Unorm_of; simpl; lra).
  split; [exact H1|]. split.
  - exact (proj1 (proj2
      (proj1 (projection_divides_by_squared_norm float64 c U O) H1))).
  - split; [exact H0|].
    exact (proj2 (projection_divides_by_squared_norm float64 c zeros O) H0 O).
Defined.

(** C3 (as stated) fails: the atom [2] has squared norm 4, and its
    projection [2 / 4] has squared norm 1/4, not 1. *)
Lemma projection_not_unit_norm :
  1 < Unorm_of call_maxiter1 twos O
  /\ Unorm_of call_maxiter1 (D_new_of call_maxiter1 twos) O <> 1.
Proof.
  unfold call_maxiter1, twos.
  set (c := call_ones "ista" 0 1 None 2).
  set (U := (fun _ _ => 2) : mat float64).
  assert (Hu : Unorm_of c U O = 4) by (unfold Unorm_of, U; simpl; lra).
  split; [lra|].
  rewrite Unorm_D_new, Hu, Rmax_left by lra. lra.
Qed.

(** ** Stores through an index list *)

Lemma setitem_from_other {V : Type} (indexes : list nat) :
  forall (p : nat) (v a : nat -> V) (r : nat),
    ~ In r indexes -> setitem_from p indexes v a r = a r.
Proof.
  induction indexes as [|i rest IH]; intros p v a r Hr; simpl.
  - reflexivity.
  - rewrite IH by (intros H; apply Hr; right; exact H).
    destruct (Nat.eqb_spec r i) as [->|]; [|reflexivity].
    exfalso. apply Hr. left. reflexivity.
Qed.

(** Storing back the rows that were read changes nothing, also where an
    index is repeated. *)
Lemma setitem_from_getitem {V : Type} (a0 : nat -> V) (rest : list nat) :
  forall (pre : list nat) (a : nat -> V),
    (forall r, a r = a0 r) ->
    forall r,
      setitem_from (List.length pre) rest (getitem a0 (pre ++ rest)) a r
      = a0 r.
Proof.
  induction rest as [|i rest IH]; intros pre a Ha r; simpl.
  - apply Ha.
  - replace (pre ++ i :: rest) with ((pre ++ [i]) ++ rest)
      by (rewrite <- app_assoc; reflexivity).
    replace (S (List.length pre)) with (List.length (pre ++ [i]))
      by (rewrite length_app; simpl; lia).
    apply IH. intros r'.
    destruct (Nat.eqb_spec r' i) as [->|]; [|apply Ha].
    unfold getitem. rewrite <- app_assoc. simpl.
    rewrite nth_middle. reflexivity.
Qed.

Lemma setitem_getitem {V : Type} (a : nat -> V) (indexes : list nat) (r : nat) :
  setitem a indexes (getitem a indexes) r = a r.
Proof.
  unfold setitem.
  exact (setitem_from_getitem a indexes [] a (fun _ => eq_refl) r).
Qed.

(** ** One pass through the loop body, case by case *)

Section Body.

Context {k : dtype}.
Variable env : collaborators k.
Variable c : call k.

Let st : Type := state k (RandomState env).

Lemma update_BE_result (it : Z) (m : nat) (indexes : list nat) (B : mat k)
      (E : option fvec) (xb yb : mat k) (r : result k) :
  update_BE c it m indexes B E xb yb = inl r ->
  r = NonFinite \/ r = Raises UnboundLocalError.
Proof.
  unfold update_BE. destruct (mask c); [|discriminate].
  destruct E; [|intros [= <-]; right; reflexivity].
  destruct (zero_exposure _ _); [|discriminate].
  intros [= <-]. left. reflexivity.
Qed.

(** What holds when the body reaches line 127. *)
Lemma propose_Next (it : Z) (s s' : st) :
  propose env c it s = Next s' ->
  exists xb B E,
    interrupt env it = None
    /\ in_bounds (N c) (indexes_of env c s) = true
    /\ lasso_step env c (List.length (indexes_of env c s))
                  (getitem (y c) (indexes_of env c s))
                  (getitem (st_x s) (indexes_of env c s))
                  (indexes_of env c s) (st_D s) = inr xb
    /\ update_BE c it (List.length (indexes_of env c s)) (indexes_of env c s)
                 (st_B s) (st_E s) xb (getitem (y c) (indexes_of env c s))
       = inr (B, E)
    /\ zero_normalizer c
         (update_A it (List.length (indexes_of env c s)) (st_A s) xb) = false
    /\ s' = State
              (D_new_of c
                 (U_of c (update_A it (List.length (indexes_of env c s))
                                   (st_A s) xb) B (st_D s)))
              (setitem (st_x s) (indexes_of env c s) xb)
              (update_A it (List.length (indexes_of env c s)) (st_A s) xb)
              B E
              (snd (minibatch_index env (N c, C c) (minibatch c) (st_rng s))).
Proof.
  unfold propose, indexes_of.
  destruct (minibatch_index env (N c, C c) (minibatch c) (st_rng s))
    as [indexes rng] eqn:Hidx; simpl.
  destruct (interrupt env it) as [[|]|] eqn:Hint; try discriminate.
  - destruct (in_bounds (N c) indexes); simpl; try discriminate.
    destruct (lasso_step _ _ _ _ _ _ _); discriminate.
  - destruct (in_bounds (N c) indexes) eqn:Hb; simpl; try discriminate.
    destruct (lasso_step _ _ _ _ _ _ _) as [e|xb] eqn:Hl; try discriminate.
    destruct (update_BE _ _ _ _ _ _ _ _) as [r|[B E]] eqn:HBE;
      try discriminate.
    destruct (zero_normalizer _ _) eqn:Hz; try discriminate.
    intros [= <-]. exists xb, B, E. repeat split; assumption.
Qed.

(** A return from inside the body carries the iteration number and the
    dictionary on entry; the codes are those on entry, possibly with the
    minibatch stored. *)
Lemma propose_Returns (it it' : Z) (s : st) (D' x' : mat k) :
  propose env c it s = Done (Returns it' D' x') ->
  it' = it /\ D' = st_D s
  /\ (x' = st_x s \/ exists xb, x' = setitem (st_x s) (indexes_of env c s) xb).
Proof.
  unfold propose, indexes_of.
  destruct (minibatch_index env (N c, C c) (minibatch c) (st_rng s))
    as [indexes rng] eqn:Hidx; simpl.
  destruct (interrupt env it) as [[|]|] eqn:Hint.
  - intros [= <- <- <-]. auto.
  - destruct (in_bounds (N c) indexes); simpl; try discriminate.
    destruct (lasso_step _ _ _ _ _ _ _) as [e|xb]; try discriminate.
    intros [= <- <- <-]. split; [reflexivity|]. split; [reflexivity|].
    right. exists xb. reflexivity.
  - destruct (in_bounds (N c) indexes); simpl; try discriminate.
    destruct (lasso_step _ _ _ _ _ _ _) as [e|xb]; try discriminate.
    destruct (update_BE _ _ _ _ _ _ _ _) as [r|[B E]] eqn:HBE.
    + intros [= ->]. apply update_BE_result in HBE.
      destruct HBE; discriminate.
    + destruct (zero_normalizer _ _); discriminate.
Qed.

Lemma iteration_Next (it : Z) (s s' : st) :
  iteration env c it s = Next s' ->
  propose env c it s = Next s'
  /\ exists change,
      max_change c (st_D s) (st_D s') = Some change /\ ~ change < tol c.
Proof.
  unfold iteration. destruct (propose env c it s) as [s1|r]; [|discriminate].
  destruct (max_change c (st_D s) (st_D s1)) as [change|] eqn:Hm;
    [|discriminate].
  destruct (Rlt_dec change (tol c)); [discriminate|].
  intros [= <-]. split; [reflexivity|]. exists change. auto.
Qed.

Lemma iteration_Returns (it it' : Z) (s : st) (D' x' : mat k) :
  iteration env c it s = Done (Returns it' D' x') ->
  it' = it /\ D' = st_D s
  /\ (x' = st_x s \/ exists xb, x' = setitem (st_x s) (indexes_of env c s) xb).
Proof.
  unfold iteration. destruct (propose env c it s) as [s1|r] eqn:Hp.
  - destruct (max_change c (st_D s) (st_D s1)) as [change|];
      [|discriminate].
    destruct (Rlt_dec change (tol c)); [|discriminate].
    intros [= <- <- <-]. split; [reflexivity|]. split; [reflexivity|].
    right. apply propose_Next in Hp.
    destruct Hp as (xb & B & E & _ & _ & _ & _ & _ & ->).
    exists xb. reflexivity.
  - intros [= ->]. apply propose_Returns in Hp. exact Hp.
Qed.

End Body.

(** ** Running the body forward *)

Section Forward.

Context {k : dtype}.
Variable env : collaborators k.
Variable c : call k.

Let st : Type := state k (RandomState env).

Lemma propose_runs (it : Z) (s : st) (xb B : mat k) (E : option fvec) :
  let indexes := indexes_of env c s in
  let m := List.length indexes in
  let A := update_A it m (st_A s) xb in
  interrupt env it = None ->
  in_bounds (N c) indexes = true ->
  lasso_step env c m (getitem (y c) indexes) (getitem (st_x s) indexes)
             indexes (st_D s) = inr xb ->
  update_BE c it m indexes (st_B s) (st_E s) xb (getitem (y c) indexes)
  = inr (B, E) ->
  zero_normalizer c A = false ->
  propose env c it s
  = Next (State (D_new_of c (U_of c A B (st_D s)))
                (setitem (st_x s) indexes xb) A B E
                (snd (minibatch_index env (N c, C c) (minibatch c)
                                      (st_rng s)))).
Proof.
  intros indexes m A Hint Hb Hl HBE Hz.
  unfold propose. subst A m indexes. unfold indexes_of in *.
  destruct (minibatch_index env (N c, C c) (minibatch c) (st_rng s))
    as [indexes rng]; simpl in *.
  rewrite Hint, Hb; simpl. rewrite Hl, HBE, Hz. reflexivity.
Qed.

Lemma fold_Rmax_ge (l : list R) : forall h, h <= fold_left Rmax l h.
Proof.
  induction l as [|a l IH]; intros h; simpl; [lra|].
  pose proof (IH (Rmax h a)). pose proof (Rmax_l h a). lra.
Qed.

Lemma eabs_nonneg (a : el k) : 0 <= eabs a.
Proof.
  destruct k; simpl; [apply Rabs_pos | apply sqrt_pos].
Qed.

(** On a dictionary with at least one entry the largest change exists
    and is not negative. *)
Lemma max_change_nonneg (D D_new : mat k) :
  (0 < F c)%nat -> (0 < C c)%nat ->
  exists change, max_change c D D_new = Some change /\ 0 <= change.
Proof.
  intros HF HC. unfold max_change, flatten.
  destruct (F c) as [|F']; [lia|]. destruct (C c) as [|C']; [lia|].
  simpl. eexists. split; [reflexivity|].
  eapply Rle_trans; [|apply fold_Rmax_ge]. apply eabs_nonneg.
Qed.

(** With a tolerance that is not positive the test of line 128 fails. *)
Lemma iteration_without_tolerance (it : Z) (s s' : st) :
  tol c <= 0 -> (0 < F c)%nat -> (0 < C c)%nat ->
  propose env c it s = Next s' ->
  iteration env c it s = Next s'.
Proof.
  intros Htol HF HC Hp. unfold iteration. rewrite Hp.
  destruct (max_change_nonneg (st_D s) (st_D s') HF HC) as (ch & -> & Hch).
  destruct (Rlt_dec ch (tol c)); [lra | reflexivity].
Qed.

End Forward.

(** ** The codes outside the minibatch *)

(** C9.  An iteration leaves the codes of every sample that was not drawn
    as they were, whether it goes on to the next iteration or returns. *)
Theorem unsampled_codes_unchanged
        (k : dtype) (env : collaborators k) (c : call k) (it : Z)
        (s : state k (RandomState env)) (r : nat) :
  ~ In r (indexes_of env c s) ->
  match iteration env c it s with
  | Next s' => st_x s' r = st_x s r
  | Done (Returns _ _ x') => x' r = st_x s r
  | Done _ => True
  end.
Proof.
  intros Hr.
  destruct (iteration env c it s) as [s'|[it' D' x'| |]] eqn:Hit; trivial.
  - apply iteration_Next in Hit. destruct Hit as [Hp _].
    apply propose_Next in Hp.
    destruct Hp as (xb & B & E & _ & _ & _ & _ & _ & ->). simpl.
    apply setitem_from_other. exact Hr.
  - apply iteration_Returns in Hit.
    destruct Hit as (_ & _ & [-> | [xb ->]]); [reflexivity|].
    apply setitem_from_other. exact Hr.
Qed.

(** Sample 1 is never drawn in the small run. *)
Lemma unsampled_codes_unchanged_witness :
  ~ In 1%nat (indexes_of env_ones call_ista (init env_ones call_ista))
  /\ match iteration env_ones call_ista 1 (init env_ones call_ista) with
     | Next s' => st_x s' 1%nat = st_x (init env_ones call_ista) 1%nat
     | Done (Returns _ _ x') => x' 1%nat = st_x (init env_ones call_ista) 1%nat
     | Done _ => True
     end.
Proof.
  unfold call_ista. set (c := call_ones "ista" 0 2 None 0).
  assert (H : ~ In 1%nat (indexes_of env_ones c (init env_ones c))).
  { simpl. intros [H|[]]. discriminate H. }
  split; [exact H|].
  exact (unsampled_codes_unchanged float64 env_ones c 1
                                   (init env_ones c) 1%nat H).
Defined.

(** ** The small run, evaluated *)

Ltac unfold_arrays :=
  cbv [update_A update_B dot xT_of conj_if_c transpose kind_is_c esum eadd
       esub emul ediv econj of_float ezero ones zeros init st_A st_B st_D
       st_x List.length indexes_of fst snd minibatch_index env_ones getitem
       nth setitem setitem_from Nat.eqb call_ones y D F C x mask U_of
       Adiag_of D_new_of Unorm_of norm_term rsum].

Lemma zero_normalizer_one_atom (c : call float64) (A : mat float64) :
  F c = 1%nat -> 0 <= A O O -> zero_normalizer c A = false.
Proof.
  intros HF HA. unfold zero_normalizer. rewrite HF. simpl.
  unfold Adiag_of. destruct (Req_dec_T _ _) as [H|H].
  - pose proof jitter_pos. lra.
  - simpl. apply andb_false_r.
Qed.

(** With [ista] and tolerance 0 the first iteration stores the solver's
    codes and goes on; [A] and [B] become 1. *)
Lemma ones_ista_iteration_1 (maxiter : Z) (d : R) :
  let c := call_ones "ista" 0 maxiter None d in
  exists s',
    iteration env_ones c 1 (init env_ones c) = Next s'
    /\ st_x s' = setitem zeros [O] ones
    /\ st_A s' = update_A 1 1 zeros ones
    /\ st_D s' = D_new_of c (U_of c (st_A s') (st_B s') (fun _ _ => d)).
Proof.
  intros c. eexists. split.
  - apply iteration_without_tolerance; simpl; try lra; try lia.
    eapply (propose_runs env_ones c); try reflexivity.
    apply zero_normalizer_one_atom; [reflexivity|].
    subst c. unfold_arrays. lra.
  - simpl. repeat split; reflexivity.
Qed.

(** With [fista] the first iteration goes on as well, from codes that are
    still zero. *)
Lemma ones_fista_iteration_1 (maxiter : Z) :
  let c := call_ones "fista" 0 maxiter None 0 in
  exists s',
    iteration env_ones c 1 (init env_ones c) = Next s'
    /\ st_x s' = setitem zeros [O] (getitem zeros [O]).
Proof.
  intros c. eexists. split.
  - apply iteration_without_tolerance; simpl; try lra; try lia.
    eapply (propose_runs env_ones c); try reflexivity.
    apply zero_normalizer_one_atom; [reflexivity|].
    subst c. unfold_arrays. lra.
  - simpl. reflexivity.
Qed.

(** ** The sparse-code step *)

(** C1, at [lasso_method='fista'] on the small run.  The solver answers
    with codes 1 for the sampled row, [solve] runs its one iteration and
    returns, and the returned code of that row is still the warm start 0:
    the solver's codes were bound to [x_minibatc] and never stored. *)
Theorem fista_codes_not_stored :
  snd (solve_fista env_ones (1%nat, F call_fista, C call_fista)
                   (getitem (y call_fista) [O]) (D call_fista)
                   (alpha call_fista) (getitem zeros [O]) (tol call_fista)
                   (lasso_iter call_fista) None)
      O O = 1
  /\ exists D' x', solve env_ones call_fista = Returns 2 D' x' /\ x' O O = 0.
Proof.
  unfold call_fista. set (c := call_ones "fista" 0 2 None 0).
  split; [reflexivity|].
  destruct (ones_fista_iteration_1 2) as (s' & Hit & Hx). fold c in Hit.
  exists (st_D s'), (st_x s'). split.
  - unfold solve. simpl. rewrite Hit. reflexivity.
  - rewrite Hx. reflexivity.
Qed.

(** ** The convergence test *)

Lemma fold_Rmax_ge_in (l : list R) :
  forall h a, In a (h :: l) -> a <= fold_left Rmax l h.
Proof.
  induction l as [|b l IH]; intros h a Ha; simpl.
  - destruct Ha as [->|[]]. lra.
  - destruct Ha as [->|[->|Ha]].
    + eapply Rle_trans; [apply (Rmax_l a b)|]. apply fold_Rmax_ge.
    + eapply Rle_trans; [apply (Rmax_r h a)|]. apply fold_Rmax_ge.
    + apply IH. right. exact Ha.
Qed.

Lemma amax_ge (l : list R) (v a : R) : amax l = Some v -> In a l -> a <= v.
Proof.
  destruct l as [|h t]; [discriminate|]. simpl. intros [= <-].
  apply fold_Rmax_ge_in.
Qed.

Lemma in_flatten (F C : nat) (a : fmat) (f ch : nat) :
  (f < F)%nat -> (ch < C)%nat -> In (a f ch) (flatten F C a).
Proof.
  intros Hf Hch. unfold flatten. apply in_flat_map. exists f. split.
  - apply in_seq. lia.
  - apply in_map. apply in_seq. lia.
Qed.

Section Loop.

Context {k : dtype}.
Variable env : collaborators k.
Variable c : call k.

Let st : Type := state k (RandomState env).

Lemma run_app (pre rest : list Z) (s : st) :
  run env c (pre ++ rest) s
  = match run env c pre s with
    | Next s' => run env c rest s'
    | Done r => Done r
    end.
Proof.
  revert s. induction pre as [|it pre IH]; intros s; simpl; [reflexivity|].
  destruct (iteration env c it s); [apply IH | reflexivity].
Qed.

(** The test of line 128 succeeds: the body returns the dictionary it was
    entered with. *)
Lemma iteration_converged (it : Z) (s s' : st) (change : R) :
  propose env c it s = Next s' ->
  max_change c (st_D s) (st_D s') = Some change ->
  change < tol c ->
  iteration env c it s = Done (Returns it (st_D s) (st_x s')).
Proof.
  intros Hp Hm Hlt. unfold iteration. rewrite Hp, Hm.
  destruct (Rlt_dec change (tol c)); [reflexivity | contradiction].
Qed.

End Loop.

(** C2 (as amended).  When the convergence test succeeds at iteration
    [it], [solve] returns at once with the iteration counter [it], the
    codes with the minibatch stored, and the dictionary the iteration was
    entered with, not the candidate; every entry of the two dictionaries
    differs by less than [tol] in magnitude. *)
Theorem convergence_returns_previous_iterate
        (k : dtype) (env : collaborators k) (c : call k)
        (pre rest : list Z) (it : Z) (s s' : state k (RandomState env))
        (change : R) :
  range 1 (maxiter c) = pre ++ it :: rest ->
  run env c pre (init env c) = Next s ->
  propose env c it s = Next s' ->
  max_change c (st_D s) (st_D s') = Some change ->
  change < tol c ->
  solve env c = Returns it (st_D s) (st_x s')
  /\ forall f ch, (f < F c)%nat -> (ch < C c)%nat ->
       eabs (esub (st_D s f ch) (st_D s' f ch)) < tol c.
Proof.
  intros Hrange Hpre Hp Hm Hlt. split.
  - unfold solve. rewrite Hrange, run_app, Hpre. simpl.
    rewrite (iteration_converged env c it s s' change Hp Hm Hlt).
    reflexivity.
  - intros f ch Hf Hch. eapply Rle_lt_trans; [|exact Hlt].
    apply (amax_ge _ _ _ Hm).
    apply (in_flatten (F c) (C c)
             (fun f ch => eabs (esub (st_D s f ch) (st_D s' f ch))));
      assumption.
Qed.

(** The small run with [tol = 2]: the candidate of the first iteration
    passes the test. *)
Lemma ones_tol2_iteration_1 :
  let c := call_ones "ista" 2 5 None 0 in
  exists s' change,
    propose env_ones c 1 (init env_ones c) = Next s'
    /\ max_change c (st_D (init env_ones c)) (st_D s') = Some change
    /\ change < tol c
    /\ st_D s' O O <> 0.
Proof.
  intros c.
  assert (HA : update_A 1 1 (@zeros float64) ones O O = 1)
    by (unfold_arrays; lra).
  assert (HB : update_B 1 1 (@zeros float64) ones (getitem ones [O]) O O = 1)
    by (unfold_arrays; lra).
  pose proof jitter_pos as Hj.
  set (U := U_of c (update_A 1 1 zeros ones)
                 (update_B 1 1 zeros ones (getitem ones [O])) (D c)).
  assert (HU : 0 < U O O).
  { subst U. unfold U_of, Adiag_of. rewrite HA, HB. subst c. unfold_arrays.
    assert (0 < / (1 + _JITTER)) by (apply Rinv_0_lt_compat; lra).
    unfold Rdiv. nra. }
  assert (Hpos : 0 < D_new_of c U O O).
  { unfold D_new_of. simpl. apply Rdiv_lt_0_compat; [exact HU|].
    pose proof (Rmax_r (Unorm_of c U O) 1). lra. }
  assert (Hball : D_new_of c U O O <= 1).
  { pose proof (D_new_in_ball c U O) as H.
    change (0 + D_new_of c U O O * D_new_of c U O O <= 1) in H. nra. }
  exists (State (D_new_of c U) (setitem zeros [O] ones)
                (update_A 1 1 zeros ones)
                (update_B 1 1 zeros ones (getitem ones [O])) None tt).
  exists (Rabs (0 - D_new_of c U O O)).
  split; [|split; [|split]].
  - eapply (propose_runs env_ones c); try reflexivity.
    apply zero_normalizer_one_atom; [reflexivity|].
    change (0 <= update_A 1 1 (@zeros float64) ones O O). lra.
  - reflexivity.
  - change (Rabs (0 - D_new_of c U O O) < 2).
    rewrite Rabs_left by lra. lra.
  - change (D_new_of c U O O <> 0). lra.
Qed.

Lemma convergence_returns_previous_iterate_witness :
  exists s' : state float64 unit,
    solve env_ones call_tol2 = Returns 1 (D call_tol2) (st_x s')
    /\ forall f ch, (f < F call_tol2)%nat -> (ch < C call_tol2)%nat ->
         eabs (esub (D call_tol2 f ch) (st_D s' f ch)) < tol call_tol2.
Proof.
  unfold call_tol2. set (c := call_ones "ista" 2 5 None 0).
  destruct ones_tol2_iteration_1 as (s' & change & Hp & Hm & Hlt & _).
  exists s'.
  exact (convergence_returns_previous_iterate float64 env_ones c
           [] [2; 3; 4]%Z 1 (init env_ones c) s' change
           eq_refl eq_refl Hp Hm Hlt).
Defined.

(** C2 (as stated) fails on the small run with [tol = 2]: the test
    succeeds at iteration 1, and the dictionary returned is the initial
    [[0.]], not the candidate, whose entry is positive. *)
Lemma convergence_does_not_return_candidate :
  exists s' change D' x',
    propose env_ones call_tol2 1 (init env_ones call_tol2) = Next s'
    /\ max_change call_tol2 (D call_tol2) (st_D s') = Some change
    /\ change < tol call_tol2
    /\ solve env_ones call_tol2 = Returns 1 D' x'
    /\ D' O O <> st_D s' O O.
Proof.
  unfold call_tol2. set (c := call_ones "ista" 2 5 None 0).
  destruct ones_tol2_iteration_1 as (s' & change & Hp & Hm & Hlt & Hne).
  exists s', change, (D c), (st_x s').
  repeat split; try assumption.
  - unfold solve. change (range 1 (maxiter c)) with [1; 2; 3; 4]%Z.
    cbn [run].
    pose proof (iteration_converged env_ones c 1 (init env_ones c) s'
                                    change Hp Hm Hlt) as Hc.
    rewrite Hc. reflexivity.
  - simpl. intros H. apply Hne. symmetry. exact H.
Qed.

(** ** Invariants of the loop *)

Section Invariants.

Context {k : dtype}.
Variable env : collaborators k.
Variable c : call k.

Let st : Type := state k (RandomState env).

Lemma run_preserves (P : st -> Prop) :
  (forall it s s', P s -> iteration env c it s = Next s' -> P s') ->
  forall its s s', P s -> run env c its s = Next s' -> P s'.
Proof.
  intros Hstep its. induction its as [|it its IH]; intros s s' Hs; simpl.
  - intros [= <-]. exact Hs.
  - destruct (iteration env c it s) as [s1|r] eqn:Hit; [|discriminate].
    apply IH. exact (Hstep it s s1 Hs Hit).
Qed.

(** A run that ends inside the loop ends in one of its iterations, entered
    after the iterations before it went through. *)
Lemma run_Done (its : list Z) (s : st) (r : result k) :
  run env c its s = Done r ->
  exists pre it rest s1,
    its = pre ++ it :: rest
    /\ run env c pre s = Next s1
    /\ iteration env c it s1 = Done r.
Proof.
  revert s. induction its as [|it its IH]; intros s; simpl; [discriminate|].
  destruct (iteration env c it s) as [s1|r1] eqn:Hit.
  - intros H. destruct (IH s1 H) as (pre & it1 & rest & s2 & -> & Hpre & Hd).
    exists (it :: pre), it1, rest, s2. simpl. rewrite Hit. auto.
  - intros [= <-]. exists [], it, its, s. auto.
Qed.

Lemma iteration_ball (it : Z) (s s' : st) :
  iteration env c it s = Next s' -> ball_or_initial c (st_D s').
Proof.
  intros Hit. apply iteration_Next in Hit. destruct Hit as [Hp _].
  apply propose_Next in Hp.
  destruct Hp as (xb & B & E & _ & _ & _ & _ & _ & ->). simpl.
  right. intros f. apply D_new_in_ball.
Qed.

Lemma run_ball (its : list Z) (s s' : st) :
  ball_or_initial c (st_D s) -> run env c its s = Next s' ->
  ball_or_initial c (st_D s').
Proof.
  apply (run_preserves (fun s => ball_or_initial c (st_D s))).
  intros it s0 s1 _ Hit. exact (iteration_ball it s0 s1 Hit).
Qed.

Lemma range_spec (lo hi it : Z) :
  In it (range lo hi) <-> (lo <= it <= hi - 1)%Z.
Proof.
  unfold range. rewrite in_map_iff. split.
  - intros (i & <- & Hi). apply in_seq in Hi. lia.
  - intros H. exists (Z.to_nat (it - lo)). split; [lia|].
    apply in_seq. lia.
Qed.

End Invariants.

(** C4 (as stated) fails: with [maxiter = 1] the loop body never runs and
    the initial dictionary [[2.]], of squared norm 4, is returned. *)
Lemma initial_dictionary_returned_unprojected :
  exists D' x',
    solve env_ones call_maxiter1 = Returns 1 D' x'
    /\ 1 < Unorm_of call_maxiter1 D' O.
Proof.
  unfold call_maxiter1. set (c := call_ones "ista" 0 1 None 2).
  exists (D c), zeros. split; [reflexivity|].
  unfold Unorm_of. simpl. lra.
Qed.

(** ** Loop control *)



(** ** The sufficient statistics *)

Section Statistics.

Context {k : dtype}.

Lemma esum_ext (n : nat) (f g : nat -> el k) :
  (forall i, (i < n)%nat -> f i = g i) -> esum n f = esum n g.
Proof.
  induction n as [|n IH]; intros H; simpl; [reflexivity|].
  rewrite IH by (intros; apply H; lia). rewrite H by lia. reflexivity.
Qed.

(** [xp.dot(xT, b)], entry by entry: the conjugate is on the codes. *)
Lemma dot_xT (m : nat) (xb b : mat k) (f j : nat) :
  dot m (xT_of xb) b f j = esum m (fun n => emul (econj (xb n f)) (b n j)).
Proof.
  unfold dot, xT_of. apply esum_ext. intros n _.
  rewrite conj_if_c_entry. reflexivity.
Qed.

Lemma update_A_entry (it : Z) (m : nat) (A xb : mat k) (f g : nat) :
  update_A it m A xb f g
  = eadd (emul (of_float (1 - 1 / IZR it)) (A f g))
         (emul (of_float (1 / IZR it)) (gram m xb f g)).
Proof. unfold update_A, gram. rewrite dot_xT. reflexivity. Qed.

(** A Gram matrix is Hermitian. *)
Lemma gram_hermitian (m : nat) (xb : mat k) (f g : nat) :
  gram m xb f g = econj (gram m xb g f).
Proof.
  unfold gram. apply el_ext; autorewrite with el_parts.
  - apply rsum_ext. intros n _. autorewrite with el_parts. lra.
  - rewrite <- rsum_opp. apply rsum_ext. intros n _.
    autorewrite with el_parts. lra.
Qed.

Lemma zeros_hermitian : hermitian (@zeros k).
Proof.
  intros f g. unfold zeros. apply el_ext; autorewrite with el_parts; lra.
Qed.

Lemma update_A_hermitian (it : Z) (m : nat) (A xb : mat k) :
  hermitian A -> hermitian (update_A it m A xb).
Proof.
  intros HA f g. rewrite !update_A_entry.
  pose proof (HA f g) as Hfg. pose proof (gram_hermitian m xb f g) as Hg.
  apply (f_equal ereal) in Hfg as Hr. apply (f_equal eimag) in Hfg as Hi.
  apply (f_equal ereal) in Hg as Hgr. apply (f_equal eimag) in Hg as Hgi.
  autorewrite with el_parts in Hr, Hi, Hgr, Hgi.
  apply el_ext; autorewrite with el_parts; rewrite Hr, Hi, Hgr, Hgi; lra.
Qed.

Lemma hermitian_diagonal_real (A : mat k) (f : nat) :
  hermitian A -> eimag (Adiag_of A f) = 0.
Proof.
  intros HA. unfold Adiag_of. pose proof (HA f f) as H.
  apply (f_equal eimag) in H. rewrite eimag_econj in H. lra.
Qed.

End Statistics.

(** C10.  After any number of iterations the statistic [A] equals its
    conjugate transpose (its transpose, for real data), and so its
    diagonal, the normalizer of the dictionary update, has no imaginary
    part. *)
Theorem A_is_hermitian
        (k : dtype) (env : collaborators k) (c : call k) (its : list Z)
        (s : state k (RandomState env)) :
  run env c its (init env c) = Next s ->
  (forall f g, st_A s f g = econj (st_A s g f))
  /\ (forall f, eimag (Adiag_of (st_A s) f) = 0).
Proof.
  intros Hrun.
  assert (H : hermitian (st_A s)).
  { apply (run_preserves env c (fun s => hermitian (st_A s)))
      with (its := its) (s := init env c); [| |exact Hrun].
    - intros it s0 s1 H0 Hit. apply iteration_Next in Hit.
      destruct Hit as [Hp _]. apply propose_Next in Hp.
      destruct Hp as (xb & B & E & _ & _ & _ & _ & _ & ->). simpl.
      apply update_A_hermitian. exact H0.
    - simpl. apply zeros_hermitian. }
  split; [exact H|].
  intros f. apply hermitian_diagonal_real. exact H.
Qed.

Lemma A_is_hermitian_witness :
  exists s : state float64 unit,
    run env_ones call_ista [1%Z] (init env_ones call_ista) = Next s
    /\ st_A s O O = 1
    /\ (forall f g, st_A s f g = econj (st_A s g f)).
Proof.
  unfold call_ista. set (c := call_ones "ista" 0 2 None 0).
  destruct (ones_ista_iteration_1 2 0) as (s' & Hit & _ & HA & _).
  assert (Hrun : run env_ones c [1%Z] (init env_ones c) = Next s').
  { cbn [run]. fold c in Hit. rewrite Hit. reflexivity. }
  exists s'. split; [exact Hrun|]. split.
  - pose proof (f_equal (fun A : mat float64 => A O O) HA) as HA'.
    cbv beta in HA'. etransitivity; [exact HA'|]. unfold_arrays. lra.
  - exact (proj1 (A_is_hermitian float64 env_ones c [1%Z] s' Hrun)).
Defined.

(** ** The recursion of [A] as a running average *)

Section RunningAverage.

Context {k : dtype}.

(** Entered at iteration [n + 1] with statistic [A], the recursion ends,
    after the given minibatches, with [n] times [A] plus their Gram
    matrices, divided by the last iteration number. *)
Lemma fold_A_parts (batches : list (nat * mat k)) :
  forall (n : nat) (A : mat k) (f g : nat),
    let r := fold_A (Z.of_nat (S n)) batches A f g in
    INR (n + List.length batches) * ereal r
    = INR n * ereal (A f g) + ereal (sum_of_grams batches f g)
    /\ INR (n + List.length batches) * eimag r
       = INR n * eimag (A f g) + eimag (sum_of_grams batches f g).
Proof.
  induction batches as [|[m xb] rest IH]; intros n A f g;
    cbn [fold_A sum_of_grams List.length]; cbv zeta.
  - rewrite Nat.add_0_r. unfold zeros. autorewrite with el_parts. lra.
  - replace (Z.of_nat (S n) + 1)%Z with (Z.of_nat (S (S n))) by lia.
    destruct (IH (S n) (update_A (Z.of_nat (S n)) m A xb) f g) as [Hr Hi].
    replace (n + S (List.length rest))%nat
      with (S n + List.length rest)%nat by lia.
    rewrite Hr, Hi, !update_A_entry. autorewrite with el_parts.
    rewrite <- INR_IZR_INZ, S_INR.
    pose proof (pos_INR n) as Hn.
    split; field; lra.
Qed.

End RunningAverage.

Lemma fold_A_average (k : dtype) (batches : list (nat * mat k)) (f g : nat) :
  batches <> [] ->
  fold_A 1 batches zeros f g = average_of_grams batches f g.
Proof.
  intros Hne.
  assert (Hlen : 0 < INR (List.length batches)).
  { destruct batches; [contradiction|]. apply lt_0_INR. simpl. lia. }
  destruct (fold_A_parts batches O zeros f g) as [Hr Hi].
  simpl in Hr, Hi. change (Z.pos 1) with 1%Z in Hr, Hi.
  unfold average_of_grams.
  apply el_ext; autorewrite with el_parts.
  - apply Rmult_eq_reg_l with (r := INR (List.length batches)); [|lra].
    rewrite Hr. field. lra.
  - apply Rmult_eq_reg_l with (r := INR (List.length batches)); [|lra].
    rewrite Hi. field. lra.
Qed.

(** C6.  Without a mask, run from iteration 1 on the zero matrix over any
    sequence of [t >= 1] code minibatches, of any sizes, the recursion of
    [A] ends with [1/t] times the sum of their Gram matrices
    [Xb^H . Xb]. *)
Theorem A_is_running_average
        (k : dtype) (batches : list (nat * mat k)) (f g : nat) :
  batches <> [] ->
  fold_A 1 batches zeros f g = average_of_grams batches f g.
Proof. apply fold_A_average. Qed.

Lemma A_is_running_average_witness :
  [(1%nat, ones)] <> []
  /\ fold_A 1 [(1%nat, ones)] zeros O O
     = average_of_grams [(1%nat, ones)] O O.
Proof.
  assert (H : [(1%nat, ones)] <> []) by discriminate.
  split; [exact H|].
  exact (A_is_running_average float64 [(1%nat, ones)] O O H).
Defined.

(** ** The masked recursion of [B] *)

Section Masked.

Context {k : dtype}.
Variable c : call k.

Lemma zero_exposure_true (E : fvec) :
  zero_exposure c E = true <-> exists ch, (ch < C c)%nat /\ E ch = 0.
Proof.
  unfold zero_exposure. rewrite existsb_exists. split.
  - intros (ch & Hin & H). apply in_seq in Hin. exists ch.
    split; [lia|]. destruct (Req_dec_T (E ch) 0); [assumption | discriminate].
  - intros (ch & Hlt & H). exists ch. split; [apply in_seq; lia|].
    destruct (Req_dec_T (E ch) 0); [reflexivity | contradiction].
Qed.

Lemma zero_exposure_false (E : fvec) :
  zero_exposure c E = false <-> forall ch, (ch < C c)%nat -> E ch <> 0.
Proof.
  split.
  - intros H ch Hlt H0.
    assert (Ht : zero_exposure c E = true)
      by (apply zero_exposure_true; exists ch; auto).
    congruence.
  - intros H. destruct (zero_exposure c E) eqn:Hz; [|reflexivity].
    apply zero_exposure_true in Hz. destruct Hz as (ch & Hlt & H0).
    exfalso. exact (H ch Hlt H0).
Qed.

(** With a mask and an allocated [E], lines 115-118 in one equation. *)
Lemma update_BE_masked (M : fmat) (it : Z) (m : nat) (indexes : list nat)
      (B : mat k) (E : fvec) (xb yb : mat k) :
  mask c = Some M ->
  update_BE c it m indexes B (Some E) xb yb
  = let mask_minibatch := getitem M indexes in
    let mask_sum := mask_sum_of m mask_minibatch in
    let E' := update_E E mask_sum in
    if zero_exposure c E' then inl NonFinite
    else inr (update_B_mask m E' mask_sum B xb yb mask_minibatch, Some E').
Proof. intros HM. unfold update_BE. rewrite HM. reflexivity. Qed.

Lemma update_B_mask_entry (m : nat) (E mask_sum : fvec) (B xb yb : mat k)
      (Mb : fmat) (f ch : nat) :
  update_B_mask m E mask_sum B xb yb Mb f ch
  = eadd (B f ch)
         (emul (of_float (1 / E ch))
               (esub (esum m (fun n =>
                        emul (econj (xb n f))
                             (emul (yb n ch) (of_float (Mb n ch)))))
                     (emul (of_float (mask_sum ch)) (B f ch)))).
Proof. unfold update_B_mask. rewrite dot_xT. reflexivity. Qed.

End Masked.

(** C5.  With a mask, an iteration that goes on has first added the
    per-channel sum of the minibatch's mask rows to [E], then set
    [B <- B + (1/E) (Xb^H (Yb * Mb) - mask_sum * B)] with the new [E],
    the conjugate being the identity on real data, and has updated [A] by
    the same [(1 - 1/it), 1/it] recursion as without a mask.  [Xb] is what
    the sparse-code step left in [x_minibatch]. *)
Theorem masked_statistics_recursion
        (k : dtype) (env : collaborators k) (c : call k) (M : fmat) (it : Z)
        (s s' : state k (RandomState env)) :
  mask c = Some M ->
  iteration env c it s = Next s' ->
  let indexes := indexes_of env c s in
  let m := List.length indexes in
  let mask_sum := fun ch => rsum m (fun n => M (nth n indexes O) ch) in
  exists Xb E E',
    lasso_step env c m (getitem (y c) indexes) (getitem (st_x s) indexes)
               indexes (st_D s) = inr Xb
    /\ st_E s = Some E /\ st_E s' = Some E'
    /\ (forall ch, E' ch = E ch + mask_sum ch)
    /\ (forall f ch,
          st_B s' f ch
          = eadd (st_B s f ch)
                 (emul (of_float (1 / E' ch))
                       (esub (esum m (fun n =>
                                emul (econj (Xb n f))
                                     (emul (y c (nth n indexes O) ch)
                                           (of_float
                                              (M (nth n indexes O) ch)))))
                             (emul (of_float (mask_sum ch)) (st_B s f ch)))))
    /\ (forall f g,
          st_A s' f g
          = eadd (emul (of_float (1 - 1 / IZR it)) (st_A s f g))
                 (emul (of_float (1 / IZR it))
                       (esum m (fun n => emul (econj (Xb n f)) (Xb n g))))).
Proof.
  intros HM Hit indexes m mask_sum.
  apply iteration_Next in Hit. destruct Hit as [Hp _].
  apply propose_Next in Hp.
  destruct Hp as (xb & B & E1 & _ & _ & Hl & HBE & _ & ->).
  fold indexes in Hl, HBE. fold m in Hl, HBE.
  destruct (st_E s) as [E|] eqn:HE.
  - rewrite (update_BE_masked c M) in HBE by exact HM. cbv zeta in HBE.
    destruct (zero_exposure c _); [discriminate|].
    injection HBE as <- <-.
    exists xb, E, (update_E E (mask_sum_of m (getitem M indexes))).
    split; [exact Hl|]. split; [reflexivity|]. split; [reflexivity|].
    split; [|split].
    + intros ch. reflexivity.
    + intros f ch. simpl. rewrite update_B_mask_entry. reflexivity.
    + intros f g. simpl. rewrite update_A_entry. reflexivity.
  - unfold update_BE in HBE. rewrite HM in HBE. discriminate.
Qed.

(** The small run under a mask that observes everything. *)
Lemma ones_masked_iteration_1 :
  let c := call_ones "ista" 0 2 (Some (fun _ _ => 1)) 0 in
  exists s', iteration env_ones c 1 (init env_ones c) = Next s'.
Proof.
  intros c. eexists.
  apply iteration_without_tolerance; simpl; try lra; try lia.
  eapply (propose_runs env_ones c); try reflexivity.
  - change (st_E (init env_ones c)) with (Some (fun _ : nat => 0)).
    rewrite (update_BE_masked c (fun _ _ => 1)) by reflexivity. cbv zeta.
    replace (zero_exposure c _) with false; [reflexivity|].
    symmetry. apply zero_exposure_false. intros ch Hch.
    unfold update_E, mask_sum_of, getitem. simpl. lra.
  - apply zero_normalizer_one_atom; [reflexivity|].
    subst c. unfold_arrays. lra.
Qed.

Lemma masked_statistics_recursion_witness :
  exists (s' : state float64 unit) (E E' : fvec),
    iteration env_ones call_observed 1 (init env_ones call_observed) = Next s'
    /\ st_E (init env_ones call_observed) = Some E /\ st_E s' = Some E'
    /\ forall ch,
         E' ch = E ch + rsum 1 (fun n => mask_observed (nth n [O] O) ch).
Proof.
  unfold call_observed, mask_observed.
  set (M := (fun _ _ => 1) : fmat).
  set (c := call_ones "ista" 0 2 (Some M) 0).
  destruct ones_masked_iteration_1 as (s' & Hit).
  destruct (masked_statistics_recursion float64 env_ones c M 1
              (init env_ones c) s' eq_refl Hit)
    as (Xb & E & E' & _ & HE & HE' & Hsum & _).
  exists s', E, E'. repeat split; assumption.
Defined.

(** C8 (as amended).  With a mask, line 117 divides by every component of
    the [E] that line 116 has just increased, without a guard.  If a
    channel's accumulated mask weight is then zero, the division meets a
    zero divisor; otherwise every channel of [B] is updated, none is
    skipped. *)
Theorem masked_division_is_unguarded
        (k : dtype) (c : call k) (M : fmat) (it : Z) (m : nat)
        (indexes : list nat) (B : mat k) (E : fvec) (xb yb : mat k) :
  mask c = Some M ->
  let mask_minibatch := getitem M indexes in
  let mask_sum := mask_sum_of m mask_minibatch in
  let E' := update_E E mask_sum in
  ((exists ch, (ch < C c)%nat /\ E' ch = 0) ->
   update_BE c it m indexes B (Some E) xb yb = inl NonFinite)
  /\ ((forall ch, (ch < C c)%nat -> E' ch <> 0) ->
      update_BE c it m indexes B (Some E) xb yb
      = inr (update_B_mask m E' mask_sum B xb yb mask_minibatch, Some E')).
Proof.
  intros HM mask_minibatch mask_sum E'.
  rewrite (update_BE_masked c M) by exact HM. cbv zeta.
  fold mask_minibatch. fold mask_sum. fold E'. split.
  - intros H. apply zero_exposure_true in H. rewrite H. reflexivity.
  - intros H. apply zero_exposure_false in H. rewrite H. reflexivity.
Qed.

Lemma masked_division_is_unguarded_witness :
  update_BE call_hidden 1 1 [O] zeros (Some (fun _ => 0))
            ones ones = inl NonFinite
  /\ exists B' E',
      update_BE call_observed 1 1 [O] zeros (Some (fun _ => 0))
                ones ones = inr (B', Some E')
      /\ E' O = 0 + (0 + 1).
Proof.
  unfold call_hidden, call_observed, mask_hidden, mask_observed.
  set (M0 := (fun _ _ => 0) : fmat).
  set (M1 := (fun _ _ => 1) : fmat).
  set (E := (fun _ => 0) : fvec). split.
  - apply (proj1 (masked_division_is_unguarded float64
                    (call_ones "ista" 0 2 (Some M0) 0) M0 1 1 [O] zeros E
                    ones ones eq_refl)).
    exists O. split; [simpl; lia|].
    unfold update_E, mask_sum_of, getitem, E, M0. simpl. lra.
  - eexists. eexists. split.
    + apply (proj2 (masked_division_is_unguarded float64
                      (call_ones "ista" 0 2 (Some M1) 0) M1 1 1 [O] zeros E
                      ones ones eq_refl)).
      intros ch _. unfold update_E, mask_sum_of, getitem, E, M1. simpl. lra.
    + reflexivity.
Defined.

(** C8 (as stated) fails: under a mask that hides the only channel, the
    exposure of that channel is still zero after line 116, line 117
    divides by it, and the run leaves finite arithmetic. *)
Lemma zero_exposure_is_divided_by :
  update_E (fun _ => 0) (mask_sum_of 1 (getitem mask_hidden [O])) O = 0
  /\ solve env_ones call_hidden = NonFinite.
Proof.
  unfold call_hidden, mask_hidden.
  set (M0 := (fun _ _ => 0) : fmat).
  set (c := call_ones "ista" 0 2 (Some M0) 0). split.
  - unfold update_E, mask_sum_of, getitem, M0. simpl. lra.
  - assert (HBE : update_BE c 1 1 [O] zeros (Some (fun _ => 0)) ones
                            (getitem ones [O]) = inl NonFinite).
    { rewrite (update_BE_masked c M0) by reflexivity. cbv zeta.
      replace (zero_exposure c _) with true; [reflexivity|].
      symmetry. apply zero_exposure_true. exists O. split; [simpl; lia|].
      unfold update_E, mask_sum_of, getitem, M0. simpl. lra. }
    unfold solve. change (range 1 (maxiter c)) with [1%Z]. cbn [run].
    unfold iteration, propose.
    change (interrupt env_ones 1) with (@None interrupt_point).
    change (minibatch_index env_ones (N c, C c) (minibatch c)
                            (st_rng (init env_ones c))) with ([O], tt).
    cbv iota beta.
    change (in_bounds (N c) [O]) with true. cbv iota beta. cbn [negb].
    change (lasso_step env_ones c (List.length [O]) (getitem (y c) [O])
              (getitem (st_x (init env_ones c)) [O]) [O]
              (st_D (init env_ones c)))
      with (@inr exn (mat float64) ones).
    cbv iota beta.
    change (update_BE c 1 (List.length [O]) [O] (st_B (init env_ones c))
              (st_E (init env_ones c)) ones (getitem (y c) [O]))
      with (update_BE c 1 1 [O] zeros (Some (fun _ => 0)) ones
              (getitem ones [O])).
    rewrite HBE. reflexivity.
Qed.

(** ** The recursion of [A] inside [solve] *)

Section Trace.

Context {k : dtype}.
Variable env : collaborators k.
Variable c : call k.

Lemma range_cons (lo : Z) (n : nat) :
  range lo (lo + Z.of_nat (S n))
  = lo :: range (lo + 1) (lo + 1 + Z.of_nat n).
Proof.
  unfold range.
  replace (Z.to_nat (lo + Z.of_nat (S n) - lo)) with (S n) by lia.
  replace (Z.to_nat (lo + 1 + Z.of_nat n - (lo + 1))) with n by lia.
  cbn [seq map]. f_equal; [lia|].
  rewrite <- seq_shift, map_map. apply map_ext. intros i. lia.
Qed.

(** The statistic [A] of a run over iterations [lo .. lo+n-1] is the
    recursion [fold_A] over the code minibatches of these iterations. *)
Lemma run_A_fold (n : nat) :
  forall (lo : Z) (s s' : state k (RandomState env)),
    run env c (range lo (lo + Z.of_nat n)) s = Next s' ->
    st_A s' = fold_A lo (codes_trace env c (range lo (lo + Z.of_nat n)) s)
                     (st_A s)
    /\ List.length (codes_trace env c (range lo (lo + Z.of_nat n)) s) = n.
Proof.
  induction n as [|n IH]; intros lo s s'.
  - replace (range lo (lo + Z.of_nat 0)) with (@nil Z)
      by (unfold range; replace (Z.to_nat _) with O by lia; reflexivity).
    simpl. intros [= <-]. auto.
  - rewrite range_cons. cbn [run codes_trace].
    destruct (iteration env c lo s) as [s1|r] eqn:Hit; [|discriminate].
    intros Hrun. apply IH in Hrun. destruct Hrun as [HA Hlen].
    apply iteration_Next in Hit. destruct Hit as [Hp _].
    apply propose_Next in Hp.
    destruct Hp as (xb & B & E & _ & _ & Hl & _ & _ & Hs1).
    unfold codes_of. rewrite Hl. cbn [fold_A List.length].
    rewrite HA, Hlen, Hs1. auto.
Qed.

(** If all iterations of [solve] go through, and there is at least one,
    the last [A] is the average of the Gram matrices of their codes. *)
Lemma solve_A_is_running_average (s : state k (RandomState env)) (f g : nat) :
  (2 <= maxiter c)%Z ->
  run env c (range 1 (maxiter c)) (init env c) = Next s ->
  st_A s f g
  = average_of_grams (codes_trace env c (range 1 (maxiter c)) (init env c))
                     f g.
Proof.
  intros Hmax Hrun.
  replace (maxiter c) with (1 + Z.of_nat (Z.to_nat (maxiter c - 1)))%Z
    in * by lia.
  destruct (run_A_fold _ _ _ _ Hrun) as [HA Hlen].
  rewrite HA. apply fold_A_average.
  intros Hnil. rewrite Hnil in Hlen. simpl in Hlen. lia.
Qed.

End Trace.

(** ** Edge cases of the loop *)

Section Edges.

Context {k : dtype}.
Variable env : collaborators k.
Variable c : call k.

Let st : Type := state k (RandomState env).

Lemma range_empty (lo hi : Z) : (hi <= lo)%Z -> range lo hi = [].
Proof.
  intros H. unfold range. replace (Z.to_nat (hi - lo)) with O by lia.
  reflexivity.
Qed.

Lemma range_first (lo hi : Z) :
  (lo < hi)%Z -> range lo hi = lo :: range (lo + 1) hi.
Proof.
  intros H.
  replace hi with (lo + Z.of_nat (S (Z.to_nat (hi - lo - 1))))%Z at 1 by lia.
  rewrite range_cons. f_equal. f_equal. lia.
Qed.

(** The sparse-code step with a method that is neither [ista] nor
    [fista]. *)
Lemma lasso_step_unknown (m : nat) (yb xb : mat k) (indexes : list nat)
      (D0 : mat k) :
  lasso_method c <> "ista"%string -> lasso_method c <> "fista"%string ->
  lasso_step env c m yb xb indexes D0 = inl NotImplementedError.
Proof.
  intros H1 H2. unfold lasso_step.
  apply String.eqb_neq in H1. apply String.eqb_neq in H2.
  rewrite H1, H2. destruct (mask c); reflexivity.
Qed.

(** With [fista] the step leaves the warm start in [x_minibatch]. *)
Lemma lasso_step_fista (m : nat) (yb xb : mat k) (indexes : list nat)
      (D0 : mat k) :
  lasso_method c = "fista"%string ->
  lasso_step env c m yb xb indexes D0 = inr xb.
Proof.
  intros H. unfold lasso_step. rewrite H.
  change (String.eqb "fista" "ista") with false.
  change (String.eqb "fista" "fista") with true. cbv iota.
  destruct (mask c).
  - destruct (solve_fista _ _ _ _ _ _ _ _ _). reflexivity.
  - destruct (solve_fista _ _ _ _ _ _ _ _ _). reflexivity.
Qed.

(** With [ista] the step leaves the solver's codes there. *)
Lemma lasso_step_ista (m : nat) (yb xb : mat k) (indexes : list nat)
      (D0 : mat k) :
  lasso_method c = "ista"%string ->
  lasso_step env c m yb xb indexes D0
  = inr (snd (match mask c with
              | None =>
                  solve_ista env (m, F c, C c) yb D0 (alpha c) xb (tol c)
                             (lasso_iter c)
              | Some M =>
                  solve_ista_mask env (m, F c, C c) yb D0 (alpha c) xb
                                  (tol c) (lasso_iter c) (getitem M indexes)
              end)).
Proof.
  intros H. unfold lasso_step. rewrite H.
  change (String.eqb "ista" "ista") with true. cbv iota.
  destruct (mask c).
  - destruct (solve_ista_mask _ _ _ _ _ _ _ _ _). reflexivity.
  - destruct (solve_ista _ _ _ _ _ _ _ _). reflexivity.
Qed.

(** A return from inside the body, with the codes it carries traced to
    the sparse-code step. *)
Lemma propose_Returns_codes (it it' : Z) (s : st) (D' x' : mat k) :
  propose env c it s = Done (Returns it' D' x') ->
  (interrupt env it = Some BeforeStore /\ x' = st_x s)
  \/ (interrupt env it = Some AfterStore
      /\ exists xb,
          lasso_step env c (List.length (indexes_of env c s))
                     (getitem (y c) (indexes_of env c s))
                     (getitem (st_x s) (indexes_of env c s))
                     (indexes_of env c s) (st_D s) = inr xb
          /\ x' = setitem (st_x s) (indexes_of env c s) xb).
Proof.
  unfold propose, indexes_of.
  destruct (minibatch_index env (N c, C c) (minibatch c) (st_rng s))
    as [indexes rng] eqn:Hidx; simpl.
  destruct (interrupt env it) as [[|]|] eqn:Hint.
  - intros [= <- <- <-]. left. auto.
  - destruct (in_bounds (N c) indexes); simpl; try discriminate.
    destruct (lasso_step _ _ _ _ _ _ _) as [e|xb] eqn:Hl; try discriminate.
    intros [= <- <- <-]. right. split; [reflexivity|]. exists xb. auto.
  - destruct (in_bounds (N c) indexes); simpl; try discriminate.
    destruct (lasso_step _ _ _ _ _ _ _) as [e|xb]; try discriminate.
    destruct (update_BE _ _ _ _ _ _ _ _) as [r|[B E]] eqn:HBE.
    + intros [= ->]. apply update_BE_result in HBE.
      destruct HBE; discriminate.
    + destruct (zero_normalizer _ _); discriminate.
Qed.

Lemma amax_nonneg (l : list R) (v : R) :
  amax l = Some v -> (forall a, In a l -> 0 <= a) -> 0 <= v.
Proof.
  destruct l as [|h t]; [discriminate|]. simpl. intros [= <-] H.
  eapply Rle_trans; [apply (H h); left; reflexivity | apply fold_Rmax_ge].
Qed.

Lemma max_change_some_nonneg (D0 D1 : mat k) (v : R) :
  max_change c D0 D1 = Some v -> 0 <= v.
Proof.
  intros H. apply (amax_nonneg _ _ H). intros a Ha.
  unfold flatten in Ha. apply in_flat_map in Ha.
  destruct Ha as (f & _ & Ha). apply in_map_iff in Ha.
  destruct Ha as (ch & <- & _). apply (eabs_nonneg env c).
Qed.

(** How an iteration can return: by an interrupt, or by the test of line
    128 with a positive tolerance. *)
Lemma iteration_Returns_cause (it it' : Z) (s : st) (D' x' : mat k) :
  iteration env c it s = Done (Returns it' D' x') ->
  interrupt env it <> None \/ 0 < tol c.
Proof.
  unfold iteration. destruct (propose env c it s) as [s1|r] eqn:Hp.
  - destruct (max_change c (st_D s) (st_D s1)) as [change|] eqn:Hm;
      [|discriminate].
    destruct (Rlt_dec change (tol c)) as [Hlt|]; [|discriminate].
    intros _. right. apply max_change_some_nonneg in Hm. lra.
  - intros [= ->]. left. apply propose_Returns_codes in Hp.
    destruct Hp as [[H _]|[H _]]; rewrite H; discriminate.
Qed.

End Edges.

(** With [maxiter <= 1] the loop body never runs: [solve] returns
    [maxiter] itself (zero or negative included), the caller's dictionary
    and the caller's codes, or zeros if none were given.  Nothing is
    sampled and the solver name is not looked at. *)
Theorem no_iteration_when_maxiter_at_most_1
        (k : dtype) (env : collaborators k) (c : call k) :
  (maxiter c <= 1)%Z ->
  solve env c
  = Returns (maxiter c) (D c)
            (match x c with Some x0 => x0 | None => zeros end).
Proof.
  intros H. unfold solve. rewrite range_empty by exact H. reflexivity.
Qed.

Lemma no_iteration_when_maxiter_at_most_1_witness :
  (maxiter call_maxiter1 <= 1)%Z
  /\ solve env_ones call_maxiter1 = Returns 1 (D call_maxiter1) zeros.
Proof.
  assert (H : (maxiter call_maxiter1 <= 1)%Z) by (simpl; lia).
  split; [exact H|].
  exact (no_iteration_when_maxiter_at_most_1 float64 env_ones
                                             call_maxiter1 H).
Defined.

(** A solver name other than [ista] and [fista] is found out in the
    first iteration, which needs [maxiter >= 2]: [solve] then raises
    [NotImplementedError], provided the sampled indices are valid and the
    user has not interrupted before. *)
Theorem unknown_method_raises
        (k : dtype) (env : collaborators k) (c : call k) :
  lasso_method c <> "ista"%string ->
  lasso_method c <> "fista"%string ->
  (2 <= maxiter c)%Z ->
  interrupt env 1 <> Some BeforeStore ->
  in_bounds (N c) (indexes_of env c (init env c)) = true ->
  solve env c = Raises NotImplementedError.
Proof.
  intros H1 H2 Hmax Hint Hb. unfold solve.
  rewrite range_first by lia. cbn [run].
  unfold iteration, propose. unfold indexes_of in Hb.
  destruct (minibatch_index env (N c, C c) (minibatch c)
                            (st_rng (init env c))) as [indexes rng].
  simpl in Hb. rewrite Hb. cbn [negb].
  rewrite (lasso_step_unknown env c) by assumption.
  destruct (interrupt env 1) as [[|]|]; [contradiction | reflexivity..].
Qed.

Lemma unknown_method_raises_witness :
  solve env_ones call_unknown = Raises NotImplementedError.
Proof.
  apply (unknown_method_raises float64 env_ones call_unknown).
  - discriminate.
  - discriminate.
  - simpl. lia.
  - discriminate.
  - reflexivity.
Defined.

(** A [KeyboardInterrupt] in iteration [it] never escapes as such.  If it
    arrives before the codes are stored, [solve] returns [it] with the
    dictionary and the codes the iteration was entered with.  If it
    arrives after, the sparse-code step has run: either that step raised
    ([IndexError], [NotImplementedError]), or [solve] returns [it], the
    dictionary on entry and the codes with the minibatch stored.  The
    statistics and the candidate of the interrupted iteration are never
    part of the result. *)
Theorem interrupt_returns_entry_dictionary
        (k : dtype) (env : collaborators k) (c : call k)
        (pre rest : list Z) (it : Z) (s : state k (RandomState env))
        (p : interrupt_point) :
  range 1 (maxiter c) = pre ++ it :: rest ->
  run env c pre (init env c) = Next s ->
  interrupt env it = Some p ->
  match p with
  | BeforeStore => solve env c = Returns it (st_D s) (st_x s)
  | AfterStore =>
      solve env c = Raises IndexError
      \/ solve env c = Raises NotImplementedError
      \/ exists xb,
          lasso_step env c (List.length (indexes_of env c s))
                     (getitem (y c) (indexes_of env c s))
                     (getitem (st_x s) (indexes_of env c s))
                     (indexes_of env c s) (st_D s) = inr xb
          /\ solve env c
             = Returns it (st_D s) (setitem (st_x s) (indexes_of env c s) xb)
  end.
Proof.
  intros Hrange Hpre Hint.
  unfold solve. rewrite Hrange, run_app, Hpre. cbn [run].
  unfold iteration, propose, indexes_of. rewrite Hint.
  destruct (minibatch_index env (N c, C c) (minibatch c) (st_rng s))
    as [indexes rng]. cbn [fst].
  destruct p; [reflexivity|].
  destruct (in_bounds (N c) indexes); cbn [negb]; [|left; reflexivity].
  destruct (lasso_step _ _ _ _ _ _ _) as [e|xb] eqn:Hl.
  - unfold lasso_step in Hl.
    destruct (mask c);
      destruct (String.eqb (lasso_method c) "ista");
      destruct (String.eqb (lasso_method c) "fista");
      repeat match type of Hl with
             | context [let '(_, _) := ?p in _] => destruct p
             end;
      try discriminate; injection Hl as <-; right; left; reflexivity.
  - right. right. exists xb. split; reflexivity.
Qed.

Lemma interrupt_returns_entry_dictionary_witness :
  solve env_interrupted call_ista = Returns 1 (D call_ista) zeros.
Proof.
  exact (interrupt_returns_entry_dictionary float64 env_interrupted call_ista
           [] [] 1 (init env_interrupted call_ista) BeforeStore
           eq_refl eq_refl eq_refl).
Defined.

(** A tolerance that is not positive switches the convergence test off:
    if nobody interrupts, [solve] can only return by exhausting the loop,
    with the iteration count [maxiter]. *)
Theorem nonpositive_tol_runs_to_maxiter
        (k : dtype) (env : collaborators k) (c : call k)
        (it : Z) (D' x' : mat k) :
  tol c <= 0 ->
  (forall i, interrupt env i = None) ->
  solve env c = Returns it D' x' ->
  it = maxiter c.
Proof.
  intros Htol Hint Hsolve. unfold solve in Hsolve.
  destruct (run env c (range 1 (maxiter c)) (init env c)) as [s|r] eqn:Hrun.
  - injection Hsolve as <- _ _. reflexivity.
  - subst r. apply run_Done in Hrun.
    destruct Hrun as (pre & it1 & rest & s1 & _ & _ & Hd).
    apply iteration_Returns_cause in Hd.
    destruct Hd as [Hd|Hd]; [|lra]. exfalso. apply Hd. apply Hint.
Qed.

Lemma nonpositive_tol_runs_to_maxiter_witness :
  exists D' x',
    solve env_ones call_ista = Returns 2 D' x'
    /\ 2%Z = maxiter call_ista.
Proof.
  unfold call_ista. set (c := call_ones "ista" 0 2 None 0).
  destruct (ones_ista_iteration_1 2 0) as (s' & Hit & _).
  assert (Hs : solve env_ones c = Returns 2 (st_D s') (st_x s')).
  { unfold solve. change (range 1 (maxiter c)) with [1%Z]. cbn [run].
    fold c in Hit. rewrite Hit. reflexivity. }
  exists (st_D s'), (st_x s'). split; [exact Hs|].
  refine (nonpositive_tol_runs_to_maxiter float64 env_ones c 2
            (st_D s') (st_x s') _ (fun _ => eq_refl) Hs).
  simpl. lra.
Defined.

Lemma flatten_empty (F C : nat) (a : fmat) :
  F = O \/ C = O -> flatten F C a = [].
Proof.
  unfold flatten. intros [-> | ->]; [reflexivity|]. simpl.
  induction (seq 0 F) as [|f l IH]; [reflexivity | exact IH].
Qed.

(** On a dictionary without atoms or without channels the convergence
    test has nothing to take the maximum of and raises, so an iteration
    neither goes on nor returns: with [maxiter >= 2] and no interrupt
    [solve] returns nothing. *)
Theorem empty_dictionary_never_returns
        (k : dtype) (env : collaborators k) (c : call k)
        (it : Z) (D' x' : mat k) :
  F c = O \/ C c = O ->
  (forall i, interrupt env i = None) ->
  (2 <= maxiter c)%Z ->
  solve env c <> Returns it D' x'.
Proof.
  intros Hempty Hint Hmax. unfold solve.
  rewrite range_first by lia. cbn [run]. unfold iteration.
  destruct (propose env c 1 (init env c)) as [s1|r] eqn:Hp.
  - unfold max_change. rewrite flatten_empty by exact Hempty. simpl.
    discriminate.
  - intros ->. apply propose_Returns_codes in Hp.
    destruct Hp as [[H _]|[H _]]; rewrite Hint in H; discriminate.
Qed.

Lemma empty_dictionary_never_returns_witness :
  solve env_ones call_no_atoms <> Returns 2 zeros zeros.
Proof.
  apply (empty_dictionary_never_returns float64 env_ones call_no_atoms).
  - left. reflexivity.
  - intros i. reflexivity.
  - simpl. lia.
Defined.

(** ** What reaches the codes *)

Section Codes.

Context {k : dtype}.
Variable env : collaborators k.
Variable c : call k.

Let st : Type := state k (RandomState env).

(** The codes after an iteration, whether it goes on or returns: those on
    entry, or those with the content of [x_minibatch] stored. *)
Lemma iteration_codes (it : Z) (s : st) :
  forall x',
    (exists s', iteration env c it s = Next s' /\ x' = st_x s')
    \/ (exists it' D', iteration env c it s = Done (Returns it' D' x')) ->
    x' = st_x s
    \/ exists xb,
        lasso_step env c (List.length (indexes_of env c s))
                   (getitem (y c) (indexes_of env c s))
                   (getitem (st_x s) (indexes_of env c s))
                   (indexes_of env c s) (st_D s) = inr xb
        /\ x' = setitem (st_x s) (indexes_of env c s) xb.
Proof.
  intros x' [(s' & Hit & ->) | (it' & D' & Hit)].
  - apply iteration_Next in Hit. destruct Hit as [Hp _].
    apply propose_Next in Hp.
    destruct Hp as (xb & B & E & _ & _ & Hl & _ & _ & ->).
    right. exists xb. split; [exact Hl | reflexivity].
  - unfold iteration in Hit.
    destruct (propose env c it s) as [s1|r] eqn:Hp.
    + destruct (max_change c (st_D s) (st_D s1)); [|discriminate].
      destruct (Rlt_dec _ _); [|discriminate].
      injection Hit as _ _ <-. apply propose_Next in Hp.
      destruct Hp as (xb & B & E & _ & _ & Hl & _ & _ & ->).
      right. exists xb. split; [exact Hl | reflexivity].
    + injection Hit as ->. apply propose_Returns_codes in Hp.
      destruct Hp as [[_ ->]|[_ (xb & Hl & ->)]]; [left; reflexivity|].
      right. exists xb. split; [exact Hl | reflexivity].
Qed.

(** A property of the rows of the codes that every iteration keeps is
    kept by [solve]. *)
Lemma solve_codes_invariant (P : mat k -> Prop) :
  (forall s xb,
      P (st_x s) ->
      lasso_step env c (List.length (indexes_of env c s))
                 (getitem (y c) (indexes_of env c s))
                 (getitem (st_x s) (indexes_of env c s))
                 (indexes_of env c s) (st_D s) = inr xb ->
      P (setitem (st_x s) (indexes_of env c s) xb)) ->
  P (st_x (init env c)) ->
  forall it D' x', solve env c = Returns it D' x' -> P x'.
Proof.
  intros Hstep Hinit it D' x' Hsolve.
  assert (Hrun : forall its s s',
             P (st_x s) -> run env c its s = Next s' -> P (st_x s')).
  { apply (run_preserves env c (fun s => P (st_x s))).
    intros it0 s0 s1 H0 Hit.
    destruct (iteration_codes it0 s0 (st_x s1)) as [->|(xb & Hl & ->)].
    - left. exists s1. auto.
    - exact H0.
    - apply Hstep; assumption. }
  unfold solve in Hsolve.
  destruct (run env c (range 1 (maxiter c)) (init env c)) as [s|r] eqn:Hr.
  - injection Hsolve as _ _ <-. exact (Hrun _ _ _ Hinit Hr).
  - subst r. apply run_Done in Hr.
    destruct Hr as (pre & it1 & rest & s1 & _ & Hpre & Hd).
    pose proof (Hrun _ _ _ Hinit Hpre) as H1.
    destruct (iteration_codes it1 s1 x') as [->|(xb & Hl & ->)].
    + right. exists it, D'. exact Hd.
    + exact H1.
    + apply Hstep; assumption.
Qed.

End Codes.

(** With [lasso_method='fista'], masked or not, [solve] never changes the
    codes: whatever it returns, the returned [x] is the caller's [x], or
    all zero if none was given, whatever the solver answered. *)
Theorem fista_returns_initial_codes
        (k : dtype) (env : collaborators k) (c : call k)
        (it : Z) (D' x' : mat k) :
  lasso_method c = "fista"%string ->
  solve env c = Returns it D' x' ->
  forall r, x' r = match x c with Some x0 => x0 | None => zeros end r.
Proof.
  intros Hm Hsolve.
  apply (solve_codes_invariant env c
           (fun x1 => forall r, x1 r = st_x (init env c) r))
    with (it := it) (D' := D') (x' := x'); [| |exact Hsolve].
  - intros s xb Hs Hl r.
    rewrite (lasso_step_fista env c) in Hl by exact Hm.
    injection Hl as <-. rewrite setitem_getitem. apply Hs.
  - intros r. reflexivity.
Qed.

Lemma fista_returns_initial_codes_witness :
  exists D' x',
    solve env_ones call_fista = Returns 2 D' x'
    /\ forall r, x' r = zeros r.
Proof.
  unfold call_fista. set (c := call_ones "fista" 0 2 None 0).
  destruct (ones_fista_iteration_1 2) as (s' & Hit & _).
  assert (Hs : solve env_ones c = Returns 2 (st_D s') (st_x s')).
  { unfold solve. change (range 1 (maxiter c)) with [1%Z]. cbn [run].
    fold c in Hit. rewrite Hit. reflexivity. }
  exists (st_D s'), (st_x s'). split; [exact Hs|].
  exact (fista_returns_initial_codes float64 env_ones c 2 (st_D s')
                                     (st_x s') eq_refl Hs).
Defined.

Section Undrawn.

Context {k : dtype}.
Variable env : collaborators k.
Variable c : call k.

(** A sample that is in the minibatch of no iteration of a run keeps its
    codes through the run. *)
Lemma run_undrawn (r : nat) (its : list Z) :
  forall s0 : state k (RandomState env),
    (forall pre it rest s,
        its = pre ++ it :: rest ->
        run env c pre s0 = Next s ->
        ~ In r (indexes_of env c s)) ->
    (forall s', run env c its s0 = Next s' -> st_x s' r = st_x s0 r)
    /\ (forall it D' x',
          run env c its s0 = Done (Returns it D' x') -> x' r = st_x s0 r).
Proof.
  induction its as [|it its IH]; intros s0 H.
  - split; [|discriminate]. cbn [run]. intros s' [= <-]. reflexivity.
  - assert (Hr : ~ In r (indexes_of env c s0))
      by (apply (H [] it its s0); reflexivity).
    assert (Hrow : forall x1,
               x1 = st_x s0
               \/ (exists xb,
                      lasso_step env c (List.length (indexes_of env c s0))
                                 (getitem (y c) (indexes_of env c s0))
                                 (getitem (st_x s0) (indexes_of env c s0))
                                 (indexes_of env c s0) (st_D s0) = inr xb
                      /\ x1 = setitem (st_x s0) (indexes_of env c s0) xb) ->
               x1 r = st_x s0 r).
    { intros x1 [->|(xb & _ & ->)]; [reflexivity|].
      apply setitem_from_other. exact Hr. }
    cbn [run]. destruct (iteration env c it s0) as [s1|r0] eqn:Hit.
    + assert (H1 : st_x s1 r = st_x s0 r).
      { apply Hrow. apply (iteration_codes env c it s0).
        left. exists s1. auto. }
      destruct (IH s1) as [IHn IHd].
      { intros pre it' rest s Heq Hpre.
        apply (H (it :: pre) it' rest s).
        - simpl. rewrite Heq. reflexivity.
        - cbn [run]. rewrite Hit. exact Hpre. }
      split.
      * intros s' Hrun. rewrite (IHn s' Hrun). exact H1.
      * intros it' D' x' Hrun. rewrite (IHd it' D' x' Hrun). exact H1.
    + split; [discriminate|]. intros it' D' x' [= ->].
      apply Hrow. apply (iteration_codes env c it s0).
      right. exists it', D'. exact Hit.
Qed.

End Undrawn.

(** The codes of a sample that is in the minibatch of none of the
    iterations that a call executes come back from [solve] as they went
    in.  The sampler may well draw the sample in other states. *)
Theorem never_drawn_codes_returned
        (k : dtype) (env : collaborators k) (c : call k)
        (it : Z) (D' x' : mat k) (r : nat) :
  (forall pre it0 rest s,
      range 1 (maxiter c) = pre ++ it0 :: rest ->
      run env c pre (init env c) = Next s ->
      ~ In r (indexes_of env c s)) ->
  solve env c = Returns it D' x' ->
  x' r = match x c with Some x0 => x0 | None => zeros end r.
Proof.
  intros Hr Hsolve.
  destruct (run_undrawn env c r (range 1 (maxiter c)) (init env c) Hr)
    as [Hn Hd].
  unfold solve in Hsolve.
  destruct (run env c (range 1 (maxiter c)) (init env c)) as [s|r0] eqn:Hrun.
  - injection Hsolve as _ _ <-. exact (Hn s eq_refl).
  - subst r0. exact (Hd it D' x' eq_refl).
Qed.

Ltac unfold_counter_run :=
  cbv [update_A update_B dot xT_of conj_if_c transpose kind_is_c esum eadd
       esub emul ediv econj of_float ezero ones zeros init st_A st_B st_D
       st_x st_rng List.length indexes_of fst snd minibatch_index
       new_RandomState env_counter getitem nth setitem setitem_from Nat.eqb
       call_ones call_ista y D F C x mask U_of Adiag_of D_new_of Unorm_of
       norm_term rsum].

(** The first iteration under the counting sampler draws sample 0 and
    goes on. *)
Lemma counter_iteration_1 :
  exists s',
    iteration env_counter call_ista 1 (init env_counter call_ista) = Next s'.
Proof.
  eexists.
  apply iteration_without_tolerance; simpl; try lra; try lia.
  eapply (propose_runs env_counter call_ista); try reflexivity.
  apply zero_normalizer_one_atom; [reflexivity|].
  unfold_counter_run. lra.
Qed.

(** Sample 1 is not drawn in the one iteration of this call, although the
    sampler draws it in its next state. *)
Lemma never_drawn_codes_returned_witness :
  In 1%nat (fst (minibatch_index env_counter (2%nat, 1%nat) 1 1%nat))
  /\ exists D' x',
      solve env_counter call_ista = Returns 2 D' x'
      /\ x' 1%nat = zeros 1%nat.
Proof.
  split; [left; reflexivity|].
  destruct counter_iteration_1 as (s' & Hit).
  assert (Hs : solve env_counter call_ista = Returns 2 (st_D s') (st_x s')).
  { unfold solve. change (range 1 (maxiter call_ista)) with [1%Z].
    cbn [run]. rewrite Hit. reflexivity. }
  exists (st_D s'), (st_x s'). split; [exact Hs|].
  refine (never_drawn_codes_returned float64 env_counter call_ista 2
                                     (st_D s') (st_x s') 1%nat _ Hs).
  intros pre it0 rest s Hrange Hpre.
  change (range 1 (maxiter call_ista)) with [1%Z] in Hrange.
  destruct pre as [|i pre].
  - cbn [run] in Hpre. injection Hpre as <-.
    intros [H|[]]. discriminate H.
  - exfalso. injection Hrange as _ Hnil.
    exact (app_cons_not_nil pre rest it0 Hnil).
Defined.

(** After [a[indexes] = v], the row at [indexes[p]] is row [p] of [v],
    unless the same index is drawn again later in the list. *)
Lemma setitem_from_last {V : Type} (indexes : list nat) :
  forall (p0 : nat) (v a : nat -> V) (p : nat),
    (p < List.length indexes)%nat ->
    (forall q, (p < q < List.length indexes)%nat ->
               nth q indexes O <> nth p indexes O) ->
    setitem_from p0 indexes v a (nth p indexes O) = v (p0 + p)%nat.
Proof.
  induction indexes as [|i rest IH]; intros p0 v a p Hp Hlast.
  - simpl in Hp. lia.
  - destruct p as [|p'].
    + cbn [nth setitem_from]. rewrite setitem_from_other.
      * rewrite Nat.eqb_refl. f_equal. lia.
      * intros Hin. apply (In_nth _ _ O) in Hin.
        destruct Hin as (q' & Hq' & Hnth).
        apply (Hlast (S q')); [simpl; lia | exact Hnth].
    + cbn [nth setitem_from].
      rewrite IH.
      * f_equal. lia.
      * simpl in Hp. lia.
      * intros q Hq. apply (Hlast (S q)). simpl. lia.
Qed.

(** With [lasso_method='ista'] an iteration that goes on has stored the
    solver's codes: the row of [x] at the [p]-th sampled index is row [p]
    of what [solve_ista] (under a mask, [solve_ista_mask]) returned for
    the minibatch, warm-started from the rows of [x] on entry; where a
    sample is drawn more than once this holds for its last draw. *)
Theorem ista_codes_stored
        (k : dtype) (env : collaborators k) (c : call k) (it : Z)
        (s s' : state k (RandomState env)) (p : nat) :
  let indexes := indexes_of env c s in
  let m := List.length indexes in
  lasso_method c = "ista"%string ->
  iteration env c it s = Next s' ->
  (p < m)%nat ->
  (forall q, (p < q < m)%nat -> nth q indexes O <> nth p indexes O) ->
  st_x s' (nth p indexes O)
  = snd (match mask c with
         | None =>
             solve_ista env (m, F c, C c) (getitem (y c) indexes) (st_D s)
                        (alpha c) (getitem (st_x s) indexes) (tol c)
                        (lasso_iter c)
         | Some M =>
             solve_ista_mask env (m, F c, C c) (getitem (y c) indexes)
                             (st_D s) (alpha c) (getitem (st_x s) indexes)
                             (tol c) (lasso_iter c) (getitem M indexes)
         end) p.
Proof.
  intros indexes m Hm Hit Hp Hlast.
  apply iteration_Next in Hit. destruct Hit as [Hprop _].
  apply propose_Next in Hprop.
  destruct Hprop as (xb & B & E & _ & _ & Hl & _ & _ & ->).
  fold indexes in Hl. fold m in Hl.
  rewrite (lasso_step_ista env c) in Hl by exact Hm.
  injection Hl as <-. cbn [st_x]. unfold setitem.
  fold indexes. rewrite setitem_from_last by assumption. reflexivity.
Qed.

Lemma ista_codes_stored_witness :
  exists s' : state float64 unit,
    iteration env_ones call_ista 1 (init env_ones call_ista) = Next s'
    /\ st_x s' O = ones O.
Proof.
  unfold call_ista. set (c := call_ones "ista" 0 2 None 0).
  destruct (ones_ista_iteration_1 2 0) as (s' & Hit & _).
  fold c in Hit. exists s'. split; [exact Hit|].
  refine (ista_codes_stored float64 env_ones c 1 (init env_ones c) s' O
                            eq_refl Hit _ _).
  - simpl. lia.
  - simpl. intros q Hq. lia.
Defined.

(** ** Where a division can meet zero *)

Section DivisorFacts.

Context {k : dtype}.

Lemma gram_diagonal_nonneg (m : nat) (xb : mat k) (f : nat) :
  0 <= ereal (gram m xb f f).
Proof.
  unfold gram. rewrite ereal_esum. apply rsum_nonneg. intros n.
  autorewrite with el_parts. nra.
Qed.

Lemma weight_bounds (it : Z) :
  (1 <= it)%Z -> 0 <= 1 / IZR it <= 1.
Proof.
  intros H. apply IZR_le in H.
  assert (Hinv : 0 < / IZR it) by (apply Rinv_0_lt_compat; lra).
  assert (Hone : IZR it * / IZR it = 1) by (apply Rinv_r; lra).
  unfold Rdiv. rewrite Rmult_1_l. split; [lra | nra].
Qed.

Lemma update_A_diagonal_nonneg (it : Z) (m : nat) (A xb : mat k) (f : nat) :
  (1 <= it)%Z -> 0 <= ereal (A f f) ->
  0 <= ereal (update_A it m A xb f f).
Proof.
  intros Hit HA. rewrite update_A_entry. autorewrite with el_parts.
  pose proof (weight_bounds it Hit) as Hw.
  pose proof (gram_diagonal_nonneg m xb f) as Hg. nra.
Qed.

Lemma is_zero_real (z : el k) : is_zero z = true -> ereal z = 0.
Proof.
  destruct k; simpl.
  - destruct (Req_dec_T z 0); [auto | discriminate].
  - destruct (Req_dec_T (Cplx.re z) 0); [auto | discriminate].
Qed.

Lemma normalizer_nonzero (A : mat k) (f : nat) :
  0 <= ereal (A f f) ->
  is_zero (eadd (Adiag_of A f) (of_float _JITTER)) = false.
Proof.
  intros HA.
  destruct (is_zero (eadd (Adiag_of A f) (of_float _JITTER))) eqn:Hz;
    [|reflexivity].
  apply is_zero_real in Hz. unfold Adiag_of in Hz.
  autorewrite with el_parts in Hz. pose proof jitter_pos. lra.
Qed.

End DivisorFacts.

Section Divisors.

Context {k : dtype}.
Variable env : collaborators k.
Variable c : call k.

Let st : Type := state k (RandomState env).

Lemma run_preserves_in (P : st -> Prop) (its : list Z) :
  (forall it s s',
      In it its -> P s -> iteration env c it s = Next s' -> P s') ->
  forall s s', P s -> run env c its s = Next s' -> P s'.
Proof.
  induction its as [|it its IH]; intros Hstep s s' Hs; simpl.
  - intros [= <-]. exact Hs.
  - destruct (iteration env c it s) as [s1|r] eqn:Hit; [|discriminate].
    apply IH.
    + intros it0 s0 s0' Hin. apply Hstep. right. exact Hin.
    + apply (Hstep it s s1); [left; reflexivity | exact Hs | exact Hit].
Qed.

Lemma zero_normalizer_nonneg (A : mat k) :
  (forall f, 0 <= ereal (A f f)) -> zero_normalizer c A = false.
Proof.
  intros HA. unfold zero_normalizer.
  destruct (existsb _ (seq 0 (F c))) eqn:He; [|apply andb_false_r].
  apply existsb_exists in He. destruct He as (f & _ & Hz).
  rewrite normalizer_nonzero in Hz by apply HA. discriminate.
Qed.

(** The diagonal of [A] is not negative after iterations numbered from 1
    upwards. *)
Lemma run_A_diagonal_nonneg (its : list Z) (s : st) :
  (forall it, In it its -> (1 <= it)%Z) ->
  run env c its (init env c) = Next s ->
  forall f, 0 <= ereal (st_A s f f).
Proof.
  intros Hits Hrun.
  apply (run_preserves_in (fun s => forall f, 0 <= ereal (st_A s f f)) its)
    with (s := init env c); [| |exact Hrun].
  - intros it s0 s1 Hin H0 Hit f.
    apply iteration_Next in Hit. destruct Hit as [Hp _].
    apply propose_Next in Hp.
    destruct Hp as (xb & B & E & _ & _ & _ & _ & _ & ->). cbn [st_A].
    apply update_A_diagonal_nonneg; [apply Hits; exact Hin | apply H0].
  - intros f. simpl. unfold zeros. rewrite ereal_ezero. lra.
Qed.

(** How the body can leave finite arithmetic. *)
Lemma iteration_NonFinite (it : Z) (s : st) :
  iteration env c it s = Done NonFinite ->
  exists xb,
    update_BE c it (List.length (indexes_of env c s)) (indexes_of env c s)
              (st_B s) (st_E s) xb (getitem (y c) (indexes_of env c s))
    = inl NonFinite
    \/ zero_normalizer c
         (update_A it (List.length (indexes_of env c s)) (st_A s) xb) = true.
Proof.
  unfold iteration, propose, indexes_of.
  destruct (minibatch_index env (N c, C c) (minibatch c) (st_rng s))
    as [indexes rng]; cbn [fst].
  destruct (interrupt env it) as [[|]|]; try discriminate.
  - destruct (in_bounds (N c) indexes); cbn [negb]; try discriminate.
    destruct (lasso_step _ _ _ _ _ _ _); discriminate.
  - destruct (in_bounds (N c) indexes); cbn [negb]; try discriminate.
    destruct (lasso_step _ _ _ _ _ _ _) as [e|xb]; try discriminate.
    destruct (update_BE _ _ _ _ _ _ _ _) as [r|[B E]] eqn:HBE.
    + intros [= ->]. exists xb. left. exact HBE.
    + destruct (zero_normalizer _ _) eqn:Hz.
      * intros _. exists xb. right. exact Hz.
      * destruct (max_change _ _ _); [|discriminate].
        destruct (Rlt_dec _ _); discriminate.
Qed.

End Divisors.

(** After any number of the iterations of [solve] the diagonal of [A] is
    real and not negative, so no component of [Adiag + _JITTER] is zero:
    line 121 never divides by zero. *)
Theorem normalizer_never_zero
        (k : dtype) (env : collaborators k) (c : call k)
        (pre rest : list Z) (s : state k (RandomState env)) (f : nat) :
  range 1 (maxiter c) = pre ++ rest ->
  run env c pre (init env c) = Next s ->
  0 <= ereal (Adiag_of (st_A s) f)
  /\ eimag (Adiag_of (st_A s) f) = 0
  /\ is_zero (eadd (Adiag_of (st_A s) f) (of_float _JITTER)) = false.
Proof.
  intros Hrange Hrun.
  assert (Hnn : forall g, 0 <= ereal (st_A s g g)).
  { apply (run_A_diagonal_nonneg env c pre); [|exact Hrun].
    intros it Hin.
    assert (Hr : In it (range 1 (maxiter c)))
      by (rewrite Hrange; apply in_or_app; left; exact Hin).
    apply range_spec in Hr. lia. }
  split; [apply Hnn|]. split.
  - apply hermitian_diagonal_real.
    apply (run_preserves env c (fun s => hermitian (st_A s)))
      with (its := pre) (s := init env c); [| |exact Hrun].
    + intros it s0 s1 H0 Hit. apply iteration_Next in Hit.
      destruct Hit as [Hp _]. apply propose_Next in Hp.
      destruct Hp as (xb & B & E & _ & _ & _ & _ & _ & ->). simpl.
      apply update_A_hermitian. exact H0.
    + simpl. apply zeros_hermitian.
  - apply normalizer_nonzero. apply Hnn.
Qed.

Lemma normalizer_never_zero_witness :
  exists s : state float64 unit,
    run env_ones call_ista [1%Z] (init env_ones call_ista) = Next s
    /\ 0 <= ereal (Adiag_of (st_A s) O).
Proof.
  unfold call_ista. set (c := call_ones "ista" 0 2 None 0).
  destruct (ones_ista_iteration_1 2 0) as (s' & Hit & _).
  assert (Hrun : run env_ones c [1%Z] (init env_ones c) = Next s').
  { cbn [run]. fold c in Hit. rewrite Hit. reflexivity. }
  exists s'. split; [exact Hrun|].
  exact (proj1 (normalizer_never_zero float64 env_ones c [1%Z] [] s' O
                  eq_refl Hrun)).
Defined.

(** How a call can meet a division by zero. *)
Lemma solve_NonFinite_cause
        (k : dtype) (env : collaborators k) (c : call k) :
  solve env c = NonFinite ->
  exists M pre it rest (s : state k (RandomState env)) E ch,
    mask c = Some M
    /\ range 1 (maxiter c) = pre ++ it :: rest
    /\ run env c pre (init env c) = Next s
    /\ st_E s = Some E
    /\ (ch < C c)%nat
    /\ E ch + mask_sum_of (List.length (indexes_of env c s))
                          (getitem M (indexes_of env c s)) ch = 0.
Proof.
  intros Hsolve. unfold solve in Hsolve.
  destruct (run env c (range 1 (maxiter c)) (init env c)) as [s|r] eqn:Hrun;
    [discriminate|].
  subst r. apply run_Done in Hrun.
  destruct Hrun as (pre & it & rest & s & Hrange & Hpre & Hd).
  apply iteration_NonFinite in Hd. destruct Hd as (xb & [HBE|Hz]).
  - unfold update_BE in HBE. destruct (mask c) as [M|] eqn:HM; [|discriminate].
    destruct (st_E s) as [E|] eqn:HE; [|discriminate].
    destruct (zero_exposure c _) eqn:Hzero; [|discriminate].
    apply zero_exposure_true in Hzero. destruct Hzero as (ch & Hch & H0).
    exists M, pre, it, rest, s, E, ch. repeat split; assumption.
  - exfalso. rewrite zero_normalizer_nonneg in Hz; [discriminate|].
    intros f. apply update_A_diagonal_nonneg.
    + assert (Hr : In it (range 1 (maxiter c)))
        by (rewrite Hrange; apply in_or_app; right; left; reflexivity).
      apply range_spec in Hr. lia.
    + apply (run_A_diagonal_nonneg env c pre); [|exact Hpre].
      intros it0 Hin.
      assert (Hr : In it0 (range 1 (maxiter c)))
        by (rewrite Hrange; apply in_or_app; left; exact Hin).
      apply range_spec in Hr. lia.
Qed.

(** In [solve] a division by zero can happen at line 117 only: under a
    mask, in an iteration where some channel's accumulated mask weight
    is still zero after the minibatch's mask sum has been added.  The
    divisors of lines 110, 121 and 127 are never zero, so without a mask
    no division by zero happens. *)
Theorem nonfinite_only_from_zero_exposure
        (k : dtype) (env : collaborators k) (c : call k) :
  solve env c = NonFinite ->
  exists M pre it rest (s : state k (RandomState env)) E ch,
    mask c = Some M
    /\ range 1 (maxiter c) = pre ++ it :: rest
    /\ run env c pre (init env c) = Next s
    /\ st_E s = Some E
    /\ (ch < C c)%nat
    /\ E ch + mask_sum_of (List.length (indexes_of env c s))
                          (getitem M (indexes_of env c s)) ch = 0.
Proof. apply solve_NonFinite_cause. Qed.

Lemma hidden_run_leaves_finite_arithmetic :
  solve env_ones call_hidden = NonFinite.
Proof.
  unfold call_hidden, mask_hidden.
  set (M0 := (fun _ _ => 0) : fmat).
  set (c := call_ones "ista" 0 2 (Some M0) 0).
  assert (HBE : update_BE c 1 1 [O] zeros (Some (fun _ => 0)) ones
                          (getitem ones [O]) = inl NonFinite).
  { rewrite (update_BE_masked c M0) by reflexivity. cbv zeta.
    replace (zero_exposure c _) with true; [reflexivity|].
    symmetry. apply zero_exposure_true. exists O. split; [simpl; lia|].
    unfold update_E, mask_sum_of, getitem, M0. simpl. lra. }
  unfold solve. change (range 1 (maxiter c)) with [1%Z]. cbn [run].
  unfold iteration, propose.
  change (interrupt env_ones 1) with (@None interrupt_point).
  change (minibatch_index env_ones (N c, C c) (minibatch c)
                          (st_rng (init env_ones c))) with ([O], tt).
  cbv iota beta.
  change (in_bounds (N c) [O]) with true. cbv iota beta. cbn [negb].
  change (lasso_step env_ones c (List.length [O]) (getitem (y c) [O])
            (getitem (st_x (init env_ones c)) [O]) [O]
            (st_D (init env_ones c)))
    with (@inr exn (mat float64) ones).
  cbv iota beta.
  change (update_BE c 1 (List.length [O]) [O] (st_B (init env_ones c))
            (st_E (init env_ones c)) ones (getitem (y c) [O]))
    with (update_BE c 1 1 [O] zeros (Some (fun _ => 0)) ones
            (getitem ones [O])).
  rewrite HBE. reflexivity.
Qed.

Lemma nonfinite_only_from_zero_exposure_witness :
  solve env_ones call_hidden = NonFinite
  /\ exists M, mask call_hidden = Some M.
Proof.
  split; [exact hidden_run_leaves_finite_arithmetic|].
  destruct (nonfinite_only_from_zero_exposure float64 env_ones call_hidden
              hidden_run_leaves_finite_arithmetic)
    as (M & _ & _ & _ & _ & _ & _ & HM & _).
  exists M. exact HM.
Defined.

(** C4 (as amended).  In exact arithmetic, a call of [solve] that meets no
    division by zero returns either the caller's initial dictionary, as
    it was passed, or a projected candidate, every atom of which has
    squared norm at most 1; so the bound holds for every returned atom
    whenever it holds for the initial dictionary.  The calls left out are
    exactly those in which, under a mask, some iteration finds a channel
    whose accumulated mask weight is still zero when line 117 divides by
    it; for them nothing is promised.  Without a mask no call is left
    out. *)
Theorem returned_dictionary_in_ball
        (k : dtype) (env : collaborators k) (c : call k) :
  (forall it D' x',
      solve env c = Returns it D' x' ->
      (D' = D c \/ forall f, Unorm_of c D' f <= 1)
      /\ ((forall f, Unorm_of c (D c) f <= 1) ->
          forall f, Unorm_of c D' f <= 1))
  /\ (solve env c = NonFinite ->
      exists M pre it rest (s : state k (RandomState env)) E ch,
        mask c = Some M
        /\ range 1 (maxiter c) = pre ++ it :: rest
        /\ run env c pre (init env c) = Next s
        /\ st_E s = Some E
        /\ (ch < C c)%nat
        /\ E ch + mask_sum_of (List.length (indexes_of env c s))
                              (getitem M (indexes_of env c s)) ch = 0).
Proof.
  split; [|apply solve_NonFinite_cause].
  intros it D' x' Hsolve.
  assert (H : ball_or_initial c D').
  { unfold solve in Hsolve.
    destruct (run env c (range 1 (maxiter c)) (init env c)) as [s|r] eqn:Hrun.
    - injection Hsolve as _ <- _.
      apply (run_ball env c (range 1 (maxiter c)) (init env c) s);
        [left; reflexivity | exact Hrun].
    - subst r. apply run_Done in Hrun.
      destruct Hrun as (pre & it1 & rest & s1 & _ & Hpre & Hd).
      apply iteration_Returns in Hd. destruct Hd as (_ & -> & _).
      apply (run_ball env c pre (init env c) s1); [left; reflexivity|].
      exact Hpre. }
  split; [exact H|].
  intros Hinit. destruct H as [->|H]; assumption.
Qed.

Lemma returned_dictionary_in_ball_witness :
  (exists D' x',
      solve env_ones call_ista = Returns 2 D' x'
      /\ (D' = D call_ista \/ forall f, Unorm_of call_ista D' f <= 1))
  /\ (solve env_ones call_hidden = NonFinite
      /\ exists M, mask call_hidden = Some M).
Proof.
  split.
  - unfold call_ista. set (c := call_ones "ista" 0 2 None 0).
    destruct (ones_ista_iteration_1 2 0) as (s' & Hit & _).
    assert (Hs : solve env_ones c = Returns 2 (st_D s') (st_x s')).
    { unfold solve. change (range 1 (maxiter c)) with [1%Z]. cbn [run].
      fold c in Hit. rewrite Hit. reflexivity. }
    exists (st_D s'), (st_x s'). split; [exact Hs|].
    exact (proj1 (proj1 (returned_dictionary_in_ball float64 env_ones c)
                        2%Z (st_D s') (st_x s') Hs)).
  - split; [exact hidden_run_leaves_finite_arithmetic|].
    destruct (proj2 (returned_dictionary_in_ball float64 env_ones
                                                 call_hidden)
                    hidden_run_leaves_finite_arithmetic)
      as (M & _ & _ & _ & _ & _ & _ & HM & _).
    exists M. exact HM.
Defined.

(** ** The recursion of [B] inside [solve] *)

Section CrossStatistics.

Context {k : dtype}.
Variable env : collaborators k.
Variable c : call k.

Let st : Type := state k (RandomState env).

Lemma update_B_entry (it : Z) (m : nat) (B xb yb : mat k) (f ch : nat) :
  update_B it m B xb yb f ch
  = eadd (emul (of_float (1 - 1 / IZR it)) (B f ch))
         (emul (of_float (1 / IZR it))
               (esum m (fun n => emul (econj (xb n f)) (yb n ch)))).
Proof. unfold update_B. rewrite dot_xT. reflexivity. Qed.

(** Line 113 in terms of the minibatch's cross product. *)
Lemma iteration_B_unmasked (it : Z) (s s' : st) (f ch : nat) :
  mask c = None ->
  iteration env c it s = Next s' ->
  st_B s' f ch
  = eadd (emul (of_float (1 - 1 / IZR it)) (st_B s f ch))
         (emul (of_float (1 / IZR it)) (cross_of env c s f ch)).
Proof.
  intros HM Hit. apply iteration_Next in Hit. destruct Hit as [Hp _].
  apply propose_Next in Hp.
  destruct Hp as (xb & B & E & _ & _ & Hl & HBE & _ & ->). cbn [st_B].
  unfold update_BE in HBE. rewrite HM in HBE. injection HBE as <- _.
  unfold cross_of. rewrite Hl, HM. apply update_B_entry.
Qed.

Lemma run_B_parts (n : nat) :
  forall (j : nat) (s s' : st) (f ch : nat),
    mask c = None ->
    let its := range (Z.of_nat (S j)) (Z.of_nat (S j) + Z.of_nat n) in
    run env c its s = Next s' ->
    INR (j + n) * ereal (st_B s' f ch)
    = INR j * ereal (st_B s f ch) + ereal (cross_sum env c its s f ch)
    /\ INR (j + n) * eimag (st_B s' f ch)
       = INR j * eimag (st_B s f ch) + eimag (cross_sum env c its s f ch).
Proof.
  induction n as [|n IH]; intros j s s' f ch HM its; subst its.
  - rewrite range_empty by lia. cbn [run cross_sum]. intros [= <-].
    rewrite Nat.add_0_r. unfold zeros. autorewrite with el_parts. lra.
  - rewrite range_cons. cbn [run cross_sum].
    destruct (iteration env c (Z.of_nat (S j)) s) as [s1|r] eqn:Hit;
      [|discriminate].
    intros Hrun.
    replace (Z.of_nat (S j) + 1)%Z with (Z.of_nat (S (S j))) in * by lia.
    destruct (IH (S j) s1 s' f ch HM Hrun) as [Hr Hi].
    replace (j + S n)%nat with (S j + n)%nat by lia.
    rewrite Hr, Hi, (iteration_B_unmasked _ s s1 f ch HM Hit).
    autorewrite with el_parts.
    rewrite <- INR_IZR_INZ, S_INR.
    pose proof (pos_INR j) as Hj.
    split; field; lra.
Qed.

(** Lines 115-118 in terms of the minibatch's cross product: the new [B]
    times the new exposure is the old [B] times the old exposure plus
    the masked cross product. *)
Lemma iteration_B_masked (M : fmat) (it : Z) (s s' : st) (E : fvec) :
  mask c = Some M ->
  iteration env c it s = Next s' ->
  st_E s = Some E ->
  exists E',
    st_E s' = Some E'
    /\ (forall ch,
          E' ch = E ch + mask_sum_of (List.length (indexes_of env c s))
                                     (getitem M (indexes_of env c s)) ch)
    /\ (forall ch, (ch < C c)%nat -> E' ch <> 0)
    /\ (forall f ch, (ch < C c)%nat ->
          E' ch * ereal (st_B s' f ch)
          = E ch * ereal (st_B s f ch) + ereal (cross_of env c s f ch)
          /\ E' ch * eimag (st_B s' f ch)
             = E ch * eimag (st_B s f ch) + eimag (cross_of env c s f ch)).
Proof.
  intros HM Hit HE. apply iteration_Next in Hit. destruct Hit as [Hp _].
  apply propose_Next in Hp.
  destruct Hp as (xb & B & E1 & _ & _ & Hl & HBE & _ & ->).
  cbn [st_B st_E]. rewrite HE in HBE.
  rewrite (update_BE_masked c M) in HBE by exact HM. cbv zeta in HBE.
  destruct (zero_exposure c _) eqn:Hz; [discriminate|].
  injection HBE as <- <-.
  exists (update_E E (mask_sum_of (List.length (indexes_of env c s))
                                  (getitem M (indexes_of env c s)))).
  split; [reflexivity|]. split; [intros ch; reflexivity|].
  pose proof (proj1 (zero_exposure_false c _) Hz) as Hnz.
  split; [exact Hnz|].
  intros f ch Hch. specialize (Hnz ch Hch).
  rewrite update_B_mask_entry. unfold cross_of. rewrite Hl, HM.
  autorewrite with el_parts. unfold update_E in *.
  set (e := E ch) in *.
  set (ms := mask_sum_of _ _ ch) in *.
  generalize (rsum (List.length (indexes_of env c s))
                (fun i => ereal
                   (emul (econj (xb i f))
                      (emul (getitem (y c) (indexes_of env c s) i ch)
                         (of_float (getitem M (indexes_of env c s) i ch)))))).
  generalize (rsum (List.length (indexes_of env c s))
                (fun i => eimag
                   (emul (econj (xb i f))
                      (emul (getitem (y c) (indexes_of env c s) i ch)
                         (of_float (getitem M (indexes_of env c s) i ch)))))).
  intros gi gr. split; [field; exact Hnz | field; exact Hnz].
Qed.

Lemma run_B_masked (M : fmat) (its : list Z) :
  forall (s s' : st) (E : fvec),
    mask c = Some M ->
    st_E s = Some E ->
    run env c its s = Next s' ->
    exists E',
      st_E s' = Some E'
      /\ (its <> [] -> forall ch, (ch < C c)%nat -> E' ch <> 0)
      /\ (forall f ch, (ch < C c)%nat ->
            E' ch * ereal (st_B s' f ch)
            = E ch * ereal (st_B s f ch)
              + ereal (cross_sum env c its s f ch)
            /\ E' ch * eimag (st_B s' f ch)
               = E ch * eimag (st_B s f ch)
                 + eimag (cross_sum env c its s f ch)).
Proof.
  induction its as [|it rest IH]; intros s s' E HM HE.
  - cbn [run cross_sum]. intros [= <-]. exists E.
    split; [exact HE|]. split; [congruence|].
    intros f ch _. unfold zeros. autorewrite with el_parts. lra.
  - cbn [run cross_sum].
    destruct (iteration env c it s) as [s1|r] eqn:Hit; [|discriminate].
    intros Hrun.
    destruct (iteration_B_masked M it s s1 E HM Hit HE)
      as (E1 & HE1 & _ & Hnz1 & Hstep).
    destruct (IH s1 s' E1 HM HE1 Hrun) as (E' & HE' & Hnz & Hrest).
    exists E'. split; [exact HE'|]. split.
    + intros _. destruct rest as [|it2 rest2].
      * cbn [run] in Hrun. injection Hrun as <-.
        rewrite HE1 in HE'. injection HE' as <-. exact Hnz1.
      * apply Hnz. discriminate.
    + intros f ch Hch.
      destruct (Hstep f ch Hch) as [Hsr Hsi].
      destruct (Hrest f ch Hch) as [Hrr Hri].
      autorewrite with el_parts. split; lra.
Qed.

End CrossStatistics.

(** Without a mask, after [n >= 1] iterations that all went on, [B] is
    [1/n] times the sum of the cross products [Xb^H . Yb] of their
    minibatches, whatever the sizes of the minibatches. *)
Theorem B_is_running_average
        (k : dtype) (env : collaborators k) (c : call k) (n : nat)
        (s : state k (RandomState env)) (f ch : nat) :
  mask c = None ->
  (1 <= n)%nat ->
  run env c (range 1 (1 + Z.of_nat n)) (init env c) = Next s ->
  st_B s f ch
  = emul (of_float (1 / INR n))
         (cross_sum env c (range 1 (1 + Z.of_nat n)) (init env c) f ch).
Proof.
  intros HM Hn Hrun.
  destruct (run_B_parts env c n O (init env c) s f ch HM Hrun) as [Hr Hi].
  change (INR (0 + n)) with (INR n) in Hr, Hi.
  change (INR 0) with 0 in Hr, Hi.
  change (Z.of_nat 1) with 1%Z in Hr, Hi.
  assert (Hpos : 0 < INR n) by (apply lt_0_INR; lia).
  apply el_ext; autorewrite with el_parts.
  - apply Rmult_eq_reg_l with (r := INR n); [|lra].
    rewrite Hr. field. lra.
  - apply Rmult_eq_reg_l with (r := INR n); [|lra].
    rewrite Hi. field. lra.
Qed.

Lemma B_is_running_average_witness :
  exists s : state float64 unit,
    run env_ones call_ista (range 1 (1 + Z.of_nat 1))
        (init env_ones call_ista) = Next s
    /\ st_B s O O
       = emul (of_float (1 / INR 1))
              (cross_sum env_ones call_ista (range 1 (1 + Z.of_nat 1))
                         (init env_ones call_ista) O O).
Proof.
  unfold call_ista. set (c := call_ones "ista" 0 2 None 0).
  destruct (ones_ista_iteration_1 2 0) as (s' & Hit & _).
  assert (Hrun : run env_ones c (range 1 (1 + Z.of_nat 1)) (init env_ones c)
                 = Next s').
  { change (range 1 (1 + Z.of_nat 1)) with [1%Z]. cbn [run].
    fold c in Hit. rewrite Hit. reflexivity. }
  exists s'. split; [exact Hrun|].
  refine (B_is_running_average float64 env_ones c 1 s' O O eq_refl _ Hrun).
  lia.
Defined.

(** After a run in which every division by the exposure met nonzero
    components, the exposure is nonzero in every channel. *)
Lemma always_exposed_last
      (k : dtype) (env : collaborators k) (c : call k) (M : fmat)
      (its : list Z) :
  forall (s0 s : state k (RandomState env)) (E0 : fvec),
    mask c = Some M ->
    st_E s0 = Some E0 ->
    its <> [] ->
    always_exposed env c its s0 ->
    run env c its s0 = Next s ->
    exists E, st_E s = Some E /\ forall ch, (ch < C c)%nat -> E ch <> 0.
Proof.
  induction its as [|it rest IH]; intros s0 s E0 HM HE0 Hne Hexp Hrun;
    [congruence|].
  cbn [run always_exposed] in Hrun, Hexp. destruct Hexp as [Hexp0 Hrest].
  destruct (iteration env c it s0) as [s1|r] eqn:Hit; [|discriminate].
  destruct (iteration_B_masked env c M it s0 s1 E0 HM Hit HE0)
    as (E1 & HE1 & Hsum & _).
  assert (Hnz1 : forall ch, (ch < C c)%nat -> E1 ch <> 0).
  { unfold exposed, exposure_after in Hexp0. rewrite HM, HE0 in Hexp0.
    intros ch Hch. rewrite Hsum. exact (Hexp0 ch Hch). }
  destruct rest as [|it2 rest2].
  - cbn [run] in Hrun. injection Hrun as <-. exists E1. auto.
  - apply (IH s1 s E1 HM HE1); [discriminate | exact Hrest | exact Hrun].
Qed.

(** Under a mask, after any iterations, at least one, in none of which
    line 117 divided by a zero exposure, [B] is, channel by channel, the
    sum of the masked cross products [Xb^H . (Yb * Mb)] of their
    minibatches divided by the exposure [E]. *)
Theorem masked_B_is_weighted_average
        (k : dtype) (env : collaborators k) (c : call k) (M : fmat)
        (its : list Z) (s : state k (RandomState env)) :
  mask c = Some M ->
  its <> [] ->
  always_exposed env c its (init env c) ->
  run env c its (init env c) = Next s ->
  exists E,
    st_E s = Some E
    /\ forall f ch, (ch < C c)%nat ->
         st_B s f ch
         = emul (of_float (1 / E ch))
                (cross_sum env c its (init env c) f ch).
Proof.
  intros HM Hne Hexp Hrun.
  assert (HE0 : st_E (init env c) = Some (fun _ => 0))
    by (unfold init; cbn [st_E]; rewrite HM; reflexivity).
  destruct (run_B_masked env c M its (init env c) s _ HM HE0 Hrun)
    as (E & HE & _ & HB).
  destruct (always_exposed_last k env c M its (init env c) s _ HM HE0 Hne
                                Hexp Hrun) as (E2 & HE2 & Hnz).
  rewrite HE in HE2. injection HE2 as <-.
  exists E. split; [exact HE|].
  intros f ch Hch. specialize (Hnz ch Hch).
  destruct (HB f ch Hch) as [Hr Hi].
  apply el_ext; autorewrite with el_parts.
  - apply Rmult_eq_reg_l with (r := E ch); [|exact Hnz].
    etransitivity; [exact Hr|]. field. exact Hnz.
  - apply Rmult_eq_reg_l with (r := E ch); [|exact Hnz].
    etransitivity; [exact Hi|]. field. exact Hnz.
Qed.

Lemma masked_B_is_weighted_average_witness :
  exists (s : state float64 unit) (E : fvec),
    always_exposed env_ones call_observed [1%Z]
                   (init env_ones call_observed)
    /\ run env_ones call_observed [1%Z] (init env_ones call_observed)
       = Next s
    /\ st_E s = Some E
    /\ st_B s O O
       = emul (of_float (1 / E O))
              (cross_sum env_ones call_observed [1%Z]
                         (init env_ones call_observed) O O).
Proof.
  destruct ones_masked_iteration_1 as (s' & Hit).
  change (iteration env_ones call_observed 1
                    (init env_ones call_observed) = Next s') in Hit.
  assert (Hrun : run env_ones call_observed [1%Z]
                     (init env_ones call_observed) = Next s').
  { cbn [run]. rewrite Hit. reflexivity. }
  assert (Hexp : always_exposed env_ones call_observed [1%Z]
                                (init env_ones call_observed)).
  { cbn [always_exposed]. rewrite Hit. split; [|exact I].
    intros ch Hch.
    unfold update_E, mask_sum_of, getitem, mask_observed. simpl. lra. }
  assert (Hne : [1%Z] <> []) by discriminate.
  destruct (masked_B_is_weighted_average float64 env_ones call_observed
              mask_observed [1%Z] s' eq_refl Hne Hexp Hrun)
    as (E & HE & HB).
  exists s', E. split; [exact Hexp|]. split; [exact Hrun|].
  split; [exact HE|]. apply HB. simpl. lia.
Defined.

(** Under a mask without negative entries the exposure of a channel
    never decreases from one point of a run to a later one. *)
Theorem exposure_never_decreases
        (k : dtype) (env : collaborators k) (c : call k) (M : fmat)
        (its : list Z) (s s' : state k (RandomState env)) (E : fvec) :
  mask c = Some M ->
  (forall r ch, 0 <= M r ch) ->
  st_E s = Some E ->
  run env c its s = Next s' ->
  exists E', st_E s' = Some E' /\ forall ch, E ch <= E' ch.
Proof.
  intros HM Hpos. revert s E.
  induction its as [|it rest IH]; intros s E HE; cbn [run].
  - intros [= <-]. exists E. split; [exact HE | intros; lra].
  - destruct (iteration env c it s) as [s1|r] eqn:Hit; [|discriminate].
    intros Hrun.
    destruct (iteration_B_masked env c M it s s1 E HM Hit HE)
      as (E1 & HE1 & Hsum & _).
    destruct (IH s1 E1 HE1 Hrun) as (E' & HE' & Hle).
    exists E'. split; [exact HE'|]. intros ch.
    specialize (Hle ch). rewrite Hsum in Hle.
    assert (0 <= mask_sum_of (List.length (indexes_of env c s))
                             (getitem M (indexes_of env c s)) ch).
    { unfold mask_sum_of. apply rsum_nonneg. intros n. apply Hpos. }
    lra.
Qed.

Lemma exposure_never_decreases_witness :
  exists (s' : state float64 unit) (E' : fvec),
    run env_ones call_observed [1%Z] (init env_ones call_observed) = Next s'
    /\ st_E s' = Some E' /\ 0 <= E' O.
Proof.
  destruct ones_masked_iteration_1 as (s' & Hit).
  assert (Hrun : run env_ones call_observed [1%Z]
                     (init env_ones call_observed) = Next s').
  { change (iteration env_ones call_observed 1
                      (init env_ones call_observed) = Next s') in Hit.
    cbn [run]. rewrite Hit. reflexivity. }
  assert (Hpos : forall r ch : nat, 0 <= mask_observed r ch)
    by (intros; unfold mask_observed; lra).
  destruct (exposure_never_decreases float64 env_ones call_observed
              mask_observed [1%Z] (init env_ones call_observed) s'
              (fun _ => 0) eq_refl Hpos eq_refl Hrun) as (E' & HE' & Hle).
  exists s', E'. split; [exact Hrun|]. split; [exact HE'|]. apply Hle.
Defined.

(** ** Fixed points of the dictionary update *)

Section FixedPoints.

Context {k : dtype}.

Lemma esub_diag (a : el k) : esub a a = ezero.
Proof. apply el_ext; autorewrite with el_parts; lra. Qed.

Lemma eadd_zero_l (a : el k) : eadd ezero a = a.
Proof. apply el_ext; autorewrite with el_parts; lra. Qed.

Lemma emul_zero_l (a : el k) : emul ezero a = ezero.
Proof. apply el_ext; autorewrite with el_parts; lra. Qed.

Lemma emul_zero_r (a : el k) : emul a ezero = ezero.
Proof. apply el_ext; autorewrite with el_parts; lra. Qed.

Lemma econj_zero : econj (@ezero k) = ezero.
Proof. apply el_ext; autorewrite with el_parts; lra. Qed.

Lemma ediv_zero_l (z : el k) : ediv ezero z = ezero.
Proof.
  destruct k; simpl.
  - unfold Rdiv. apply Rmult_0_l.
  - unfold Cplx.div, Cplx.of_R, Cplx.re, Cplx.im; simpl.
    f_equal; unfold Rdiv; ring.
Qed.

Lemma eabs_zero : eabs (@ezero k) = 0.
Proof.
  destruct k; simpl.
  - apply Rabs_R0.
  - unfold Cplx.abs, Cplx.norm2, Cplx.of_R, Cplx.re, Cplx.im; simpl.
    replace (0 * 0 + 0 * 0) with 0 by ring. apply sqrt_0.
Qed.

Lemma esum_zero (n : nat) (f : nat -> el k) :
  (forall i, (i < n)%nat -> f i = ezero) -> esum n f = ezero.
Proof.
  induction n as [|n IH]; intros H; simpl; [reflexivity|].
  rewrite IH by (intros; apply H; lia). rewrite H by lia.
  apply eadd_zero_l.
Qed.

Variable c : call k.

(** Where the statistics of atom [f] agree with the dictionary,
    [B = A . D] on its row, the update proposes the atom again, if it
    lies in the unit ball. *)
Lemma stationary_atom_is_proposed (A B D0 : mat k) (f : nat) :
  (forall ch, (ch < C c)%nat -> B f ch = dot (F c) A D0 f ch) ->
  Unorm_of c D0 f <= 1 ->
  forall ch, (ch < C c)%nat -> D_new_of c (U_of c A B D0) f ch = D0 f ch.
Proof.
  intros HB Hball.
  assert (HU : forall ch, (ch < C c)%nat -> U_of c A B D0 f ch = D0 f ch).
  { intros ch Hch. unfold U_of. rewrite HB by exact Hch.
    rewrite esub_diag, ediv_zero_l. apply eadd_zero_l. }
  assert (Hn : Unorm_of c (U_of c A B D0) f = Unorm_of c D0 f).
  { unfold Unorm_of. apply rsum_ext. intros ch Hch.
    rewrite HU by exact Hch. reflexivity. }
  intros ch Hch. unfold D_new_of. rewrite Hn, HU by exact Hch.
  rewrite Rmax_right by exact Hball. apply ediv_by_one.
Qed.

End FixedPoints.

Lemma in_flatten_inv (F C : nat) (a : fmat) (v : R) :
  In v (flatten F C a) ->
  exists f ch, (f < F)%nat /\ (ch < C)%nat /\ v = a f ch.
Proof.
  unfold flatten. intros H. apply in_flat_map in H.
  destruct H as (f & Hf & H). apply in_map_iff in H.
  destruct H as (ch & <- & Hch). apply in_seq in Hf. apply in_seq in Hch.
  exists f, ch. repeat split; lia.
Qed.

Lemma amax_constant (l : list R) (z : R) :
  l <> [] -> (forall a, In a l -> a = z) -> amax l = Some z.
Proof.
  destruct l as [|h t]; [congruence|]. intros _ H. simpl.
  rewrite (H h) by (left; reflexivity).
  assert (Ht : forall a, In a t -> a = z) by (intros; apply H; right; auto).
  clear H. induction t as [|b t IH]; simpl; [reflexivity|].
  rewrite (Ht b) by (left; reflexivity).
  rewrite Rmax_left by lra. apply IH. intros a Ha. apply Ht. right. exact Ha.
Qed.

(** If the statistics that an iteration arrives at agree with the
    dictionary it was entered with ([B = A . D]), every atom of that
    dictionary lies in the unit ball and the tolerance is positive, the
    iteration passes the convergence test and [solve] returns there. *)
Theorem stationary_dictionary_converges
        (k : dtype) (env : collaborators k) (c : call k) (it : Z)
        (s s' : state k (RandomState env)) :
  propose env c it s = Next s' ->
  (forall f ch, (f < F c)%nat -> (ch < C c)%nat ->
     st_B s' f ch = dot (F c) (st_A s') (st_D s) f ch) ->
  (forall f, (f < F c)%nat -> Unorm_of c (st_D s) f <= 1) ->
  0 < tol c -> (0 < F c)%nat -> (0 < C c)%nat ->
  iteration env c it s = Done (Returns it (st_D s) (st_x s')).
Proof.
  intros Hp HB Hball Htol HF HC.
  apply (iteration_converged env c it s s' 0); [exact Hp| |exact Htol].
  pose proof Hp as Hp'. apply propose_Next in Hp'.
  destruct Hp' as (xb & B & E & _ & _ & _ & _ & _ & Hs').
  assert (HD : forall f ch, (f < F c)%nat -> (ch < C c)%nat ->
                 st_D s' f ch = st_D s f ch).
  { intros f ch Hf Hch. rewrite Hs'. cbn [st_D].
    apply stationary_atom_is_proposed; [|apply Hball; exact Hf|exact Hch].
    intros ch' Hch'. specialize (HB f ch' Hf Hch').
    rewrite Hs' in HB. cbn [st_B st_A] in HB. exact HB. }
  unfold max_change. apply amax_constant.
  - unfold flatten. destruct (F c) as [|F']; [lia|].
    destruct (C c) as [|C']; [lia|]. simpl. discriminate.
  - intros a Ha. apply in_flatten_inv in Ha.
    destruct Ha as (f & ch & Hf & Hch & ->).
    rewrite HD by assumption. rewrite esub_diag. apply eabs_zero.
Qed.

Ltac unfold_zero_run :=
  cbv [update_A update_B dot xT_of conj_if_c transpose kind_is_c esum eadd
       esub emul ediv econj of_float ezero ones zeros init st_A st_B st_D
       st_x List.length indexes_of fst snd minibatch_index env_zeros getitem
       nth setitem setitem_from Nat.eqb call_ones call_half call_half_tol0
       y D F C x mask U_of Adiag_of D_new_of Unorm_of norm_term rsum].

(** The first iteration of the run whose solver answers zero codes, up
    to the candidate dictionary. *)
Lemma zeros_propose_1 (tol0 : R) (maxiter0 : Z) :
  let c := call_ones "ista" tol0 maxiter0 None (1 / 2) in
  exists s',
    propose env_zeros c 1 (init env_zeros c) = Next s'
    /\ st_A s' = update_A 1 1 zeros zeros
    /\ st_B s' = update_B 1 1 zeros zeros (getitem ones [O]).
Proof.
  intros c. eexists. split.
  - eapply (propose_runs env_zeros c); try reflexivity.
    apply zero_normalizer_one_atom; [reflexivity|].
    subst c. unfold_zero_run. lra.
  - simpl. split; reflexivity.
Qed.

Lemma stationary_dictionary_converges_witness :
  exists x',
    solve env_zeros call_half = Returns 1 (D call_half) x'.
Proof.
  unfold call_half. set (c := call_ones "ista" 1 5 None (1 / 2)).
  destruct (zeros_propose_1 1 5) as (s' & Hp & HA & HB). fold c in Hp.
  exists (st_x s').
  assert (Hit : iteration env_zeros c 1 (init env_zeros c)
                = Done (Returns 1 (D c) (st_x s'))).
  { refine (stationary_dictionary_converges float64 env_zeros c 1
              (init env_zeros c) s' Hp _ _ _ _ _).
    - intros f ch Hf Hch. simpl in Hf, Hch.
      assert (f = O) by lia. assert (ch = O) by lia. subst f ch.
      rewrite HA, HB. subst c. unfold_zero_run. lra.
    - intros f Hf. subst c. unfold_zero_run. lra.
    - simpl. lra.
    - simpl. lia.
    - simpl. lia. }
  unfold solve. change (range 1 (maxiter c)) with [1; 2; 3; 4]%Z.
  cbn [run]. rewrite Hit. reflexivity.
Defined.

(** In an iteration that goes on, without a mask or with one that leaves
    no channel with a zero exposure at line 117: an atom that no code has
    used so far (its rows of [A] and [B] are zero) and that the codes of
    this minibatch do not use either keeps zero statistics and, if it
    lies in the unit ball, is not moved by the update. *)
Theorem unused_atom_is_kept
        (k : dtype) (env : collaborators k) (c : call k) (it : Z)
        (s s' : state k (RandomState env)) (f : nat) :
  exposed env c s ->
  iteration env c it s = Next s' ->
  (forall g, st_A s f g = ezero) ->
  (forall ch, st_B s f ch = ezero) ->
  (forall xb,
      lasso_step env c (List.length (indexes_of env c s))
                 (getitem (y c) (indexes_of env c s))
                 (getitem (st_x s) (indexes_of env c s))
                 (indexes_of env c s) (st_D s) = inr xb ->
      forall n, (n < List.length (indexes_of env c s))%nat ->
                xb n f = ezero) ->
  Unorm_of c (st_D s) f <= 1 ->
  (forall g, st_A s' f g = ezero)
  /\ (forall ch, st_B s' f ch = ezero)
  /\ (forall ch, (ch < C c)%nat -> st_D s' f ch = st_D s f ch).
Proof.
  intros Hexp Hit HA HB Hx Hball.
  unfold exposed, exposure_after in Hexp. cbv zeta in Hexp.
  apply iteration_Next in Hit. destruct Hit as [Hp _].
  apply propose_Next in Hp.
  destruct Hp as (xb & B & E & _ & _ & Hl & HBE & _ & ->).
  cbn [st_A st_B st_D]. specialize (Hx xb Hl).
  set (m := List.length (indexes_of env c s)) in *.
  assert (HA' : forall g, update_A it m (st_A s) xb f g = ezero).
  { intros g. rewrite update_A_entry, HA. unfold gram.
    rewrite esum_zero.
    - rewrite !emul_zero_r. apply eadd_zero_l.
    - intros n Hn. rewrite Hx by exact Hn.
      rewrite econj_zero. apply emul_zero_l. }
  assert (HB' : forall ch, B f ch = ezero).
  { intros ch. unfold update_BE in HBE. destruct (mask c) as [M|].
    - destruct (st_E s) as [E0|]; [|discriminate].
      rewrite (proj2 (zero_exposure_false c _) Hexp) in HBE.
      injection HBE as <- _. rewrite update_B_mask_entry, HB.
      rewrite esum_zero.
      + rewrite emul_zero_r, esub_diag, emul_zero_r. apply eadd_zero_l.
      + intros n Hn. rewrite Hx by exact Hn.
        rewrite econj_zero. apply emul_zero_l.
    - injection HBE as <- _. rewrite update_B_entry, HB.
      rewrite esum_zero.
      + rewrite !emul_zero_r. apply eadd_zero_l.
      + intros n Hn. rewrite Hx by exact Hn.
        rewrite econj_zero. apply emul_zero_l. }
  split; [exact HA'|]. split; [exact HB'|].
  apply stationary_atom_is_proposed; [|exact Hball].
  intros ch _. rewrite HB'. unfold dot. symmetry. apply esum_zero.
  intros g _. rewrite HA'. apply emul_zero_l.
Qed.

Lemma unused_atom_is_kept_witness :
  exists s' : state float64 unit,
    exposed env_zeros call_half_tol0 (init env_zeros call_half_tol0)
    /\ iteration env_zeros call_half_tol0 1
                 (init env_zeros call_half_tol0) = Next s'
    /\ st_D s' O O = 1 / 2.
Proof.
  unfold call_half_tol0. set (c := call_ones "ista" 0 2 None (1 / 2)).
  destruct (zeros_propose_1 0 2) as (s' & Hp & _). fold c in Hp.
  assert (Hit : iteration env_zeros c 1 (init env_zeros c) = Next s').
  { apply iteration_without_tolerance; simpl; try lra; try lia. exact Hp. }
  exists s'. split; [exact I|]. split; [exact Hit|].
  refine (proj2 (proj2 (unused_atom_is_kept float64 env_zeros c 1
                          (init env_zeros c) s' O I Hit _ _ _ _)) O _).
  - intros g. reflexivity.
  - intros ch. reflexivity.
  - intros xb Hl n Hn. injection Hl as <-. reflexivity.
  - subst c. unfold_zero_run. lra.
  - simpl. lia.
Defined.

(** ** [get_array_module] *)

Lemma xp_eqb_eq (a b : CpCompat.xp_module) :
  CpCompat.xp_eqb a b = true <-> a = b.
Proof. destruct a, b; simpl; split; intros H; congruence. Qed.

Lemma compat_none_or_same (xp : CpCompat.xp_module) (a : CpCompat.arg) :
  match a with
  | None => false
  | Some _ =>
      negb (CpCompat.xp_eqb (CpCompat.cupy_get_array_module a) xp)
  end = false
  <-> a = None \/ a = Some xp.
Proof.
  destruct a as [[|]|]; destruct xp; simpl; split; intros H;
    try reflexivity; try discriminate; auto;
    destruct H as [H|H]; congruence.
Qed.

Lemma existsb_false_in {V : Type} (f : V -> bool) (l : list V) (a : V) :
  existsb f l = false -> In a l -> f a = false.
Proof.
  intros He Hin. destruct (f a) eqn:Ha; [|reflexivity].
  assert (existsb f l = true) by (apply existsb_exists; exists a; auto).
  congruence.
Qed.

(** With [cupy] installed, [get_array_module] returns a module exactly
    when there is a first argument, the module is the one of the first
    argument ([numpy] if that is [None]), and every argument is [None] or
    an array of that module. *)
Theorem get_array_module_returns
        (arrays : list CpCompat.arg) (xp : CpCompat.xp_module) :
  CpCompat.get_array_module arrays = CpCompat.Module_ xp
  <-> (exists a0 rest,
          arrays = a0 :: rest /\ CpCompat.cupy_get_array_module a0 = xp)
      /\ forall a, In a arrays -> a = None \/ a = Some xp.
Proof.
  unfold CpCompat.get_array_module. destruct arrays as [|a0 rest].
  - split; [discriminate|]. intros [(a & r & H & _) _]. discriminate.
  - cbv zeta.
    match goal with
    | |- context [existsb ?f ?l] => destruct (existsb f l) eqn:He
    end.
    + split; [discriminate|]. intros [(a & r & [= <- <-] & Hxp) Hall].
      apply existsb_exists in He. destruct He as (a & Hin & Ha).
      rewrite Hxp in Ha. apply Hall in Hin.
      apply compat_none_or_same in Hin. congruence.
    + split.
      * intros [= <-]. split; [exists a0, rest; auto|].
        intros a Hin. apply compat_none_or_same.
        exact (existsb_false_in _ _ a He Hin).
      * intros [(a & r & [= <- <-] & Hxp) _]. congruence.
Qed.

(** With [cupy] installed and [None] passed first, the module is fixed to
    [numpy] before any array is looked at: the call raises [TypeError]
    exactly when some later argument is a cupy array, also when every
    array passed is one. *)
Theorem get_array_module_none_first (rest : list CpCompat.arg) :
  CpCompat.get_array_module (None :: rest) = CpCompat.TypeError
  <-> In (Some CpCompat.cupy) rest.
Proof.
  unfold CpCompat.get_array_module. cbv zeta.
  change (CpCompat.cupy_get_array_module None) with CpCompat.numpy.
  match goal with
  | |- context [existsb ?f ?l] => destruct (existsb f l) eqn:He
  end.
  - split; [|reflexivity]. intros _.
    apply existsb_exists in He. destruct He as (a & Hin & Ha).
    destruct Hin as [<-|Hin]; [discriminate|].
    destruct a as [[|]|]; try discriminate. exact Hin.
  - split; [discriminate|]. intros Hin. exfalso.
    pose proof (existsb_false_in _ _ (Some CpCompat.cupy) He
                  (or_intror Hin)) as H.
    discriminate H.
Qed.

Lemma solve_A_is_running_average_witness :
  exists s : state float64 unit,
    run env_ones call_ista (range 1 (maxiter call_ista))
        (init env_ones call_ista) = Next s
    /\ st_A s O O
       = average_of_grams
           (codes_trace env_ones call_ista (range 1 (maxiter call_ista))
                        (init env_ones call_ista)) O O.
Proof.
  unfold call_ista. set (c := call_ones "ista" 0 2 None 0).
  destruct (ones_ista_iteration_1 2 0) as (s' & Hit & _).
  assert (Hrun : run env_ones c (range 1 (maxiter c)) (init env_ones c)
                 = Next s').
  { change (range 1 (maxiter c)) with [1%Z]. cbn [run].
    fold c in Hit. rewrite Hit. reflexivity. }
  exists s'. split; [exact Hrun|].
  refine (solve_A_is_running_average env_ones c s' O O _ Hrun).
  simpl. lia.
Defined.
